(** * AITIA-PM: the [Inference] class of [Inference.py]

    A shallow embedding of the causal-inference pass over an event log
    (prima-facie test, epsilon averaging, window primitives), followed by
    the properties of it that the specification states.

    Modelling conventions.
    - The data frame [self.source] is the list of its rows, in row order;
      a row is the triple unpacked by [case, obs, t = row].
    - Case identifiers and observation labels are strings; timestamps and
      window bounds are integers ([Z]).
    - The dictionaries [dict_by_obs] and [prima_facie] are [gmap]s; a
      timepoint dictionary of the window functions, whose iteration order
      shows in their results, is the list of its items in insertion order;
      Python lists are lists.
    - A Python exception is a [Raise] in the [result] monad.
    - Python's true division [a / b] of two counters and the arithmetic
      on its results are taken in the exact rationals [Q]; rounding to
      binary64 is not modelled.  Two quotients of counters below 2^26
      that differ as rationals also differ as doubles, in the same
      direction, so comparisons agree on logs of that size. *)

From Stdlib Require Import ZArith QArith Lia Lqa.
From stdpp Require Import gmap strings list fin_maps sorting.

Close Scope Q_scope.
Open Scope Z_scope.

#[local] Set Warnings "-clear-no-such-hyp".

(** ** Exceptions *)

Inductive exn : Type :=
  | KeyError
  | ValueError
  | ZeroDivisionError.

Inductive result (A : Type) : Type :=
  | Ok (a : A)
  | Raise (e : exn).

Arguments Ok {A} a.
Arguments Raise {A} e.

#[global] Instance result_ret : MRet result := λ A a, Ok a.
#[global] Instance result_bind : MBind result := λ A B f r,
  match r with
  | Ok a => f a
  | Raise e => Raise e
  end.

Definition raises {A} (r : result A) : Prop := ∃ e, r = Raise e.
Definition returns {A} (r : result A) : Prop := ∃ a, r = Ok a.

(** ** The event log *)

(** One row of [self.source], in column order: [case, obs, t = row]. *)
Record row : Type := Row {
  row_case : string;
  row_obs : string;
  row_time : Z;
}.

(** [Series.unique()]: the distinct values, in order of first appearance. *)
Fixpoint unique `{EqDecision A} (l : list A) : list A :=
  match l with
  | [] => []
  | x :: l' => x :: filter (λ y, y ≠ x) (unique l')
  end.

(** [df[df['observation'].isin(labels)]] *)
Definition isin (labels : list string) (df : list row) : list row :=
  filter (λ r, row_obs r ∈ labels) df.

(** [df[df['observation'] == label]['case:concept:name'].unique()] *)
Definition cases_of (label : string) (df : list row) : list string :=
  unique (row_case <$> filter (λ r, row_obs r = label) df).

(** [df[df['case:concept:name'] == case]] *)
Definition trace_of (case : string) (df : list row) : list row :=
  filter (λ r, row_case r = case) df.

(** [time_values[obs_values == label]]: boolean-mask selection. *)
Fixpoint mask_select (time_values : list Z) (obs_values : list string)
    (label : string) : list Z :=
  match time_values, obs_values with
  | t :: ts, o :: os =>
      if decide (o = label) then t :: mask_select ts os label
      else mask_select ts os label
  | _, _ => []
  end.

(** [np.min] and [np.max] raise [ValueError] on an empty array. *)
Definition np_min (a : list Z) : result Z :=
  match a with
  | [] => Raise ValueError
  | t :: ts => Ok (foldl Z.min t ts)
  end.

Definition np_max (a : list Z) : result Z :=
  match a with
  | [] => Raise ValueError
  | t :: ts => Ok (foldl Z.max t ts)
  end.

(** [np.any(obs_values == label)] and [np.all(obs_values != label)] *)
Definition np_any_eq (obs_values : list string) (label : string) : bool :=
  bool_decide (Exists (λ o, o = label) obs_values).

Definition np_all_ne (obs_values : list string) (label : string) : bool :=
  bool_decide (Forall (λ o, o ≠ label) obs_values).

(** A [for] loop whose body may raise. *)
Fixpoint for_each {A S : Type} (body : S → A → result S) (s : S) (l : list A)
    : result S :=
  match l with
  | [] => Ok s
  | x :: l' => s' ← body s x; for_each body s' l'
  end.

(** [a / b] on counters: true division, [ZeroDivisionError] when [b] is 0. *)
Definition Qnat (n : nat) : Q := inject_Z (Z.of_nat n).

Definition truediv (a : Q) (b : nat) : result Q :=
  if decide (b = 0%nat) then Raise ZeroDivisionError else Ok (a / Qnat b)%Q.

Definition Qgtb (x y : Q) : bool :=
  match (x ?= y)%Q with
  | Gt => true
  | _ => false
  end.

(** ** The [Inference] object *)

Record Inference : Type := MkInference {
  source : list row;
  pb : bool;
  dict_by_obs : gmap string (gmap string (list Z));
  alphabet : list string;
  events : nat;
  traces : nat;
  max_time : Z;
  hypotheses : list (string * string);
  prima_facie : gmap string (list string);
}.

Definition set_prima_facie (pf : gmap string (list string)) (self : Inference)
    : Inference :=
  MkInference (source self) (pb self) (dict_by_obs self) (alphabet self)
    (events self) (traces self) (max_time self) (hypotheses self) pf.

Definition set_hypotheses (h : list (string * string)) (self : Inference)
    : Inference :=
  MkInference (source self) (pb self) (dict_by_obs self) (alphabet self)
    (events self) (traces self) (max_time self) h (prima_facie self).

(** [generate_iterator]: with or without the progress bar, the same items
    in the same order. *)
Definition generate_iterator {A : Type} (self : Inference) (iter : list A)
    : list A :=
  if pb self then iter else iter.

(** [str(obs)] on an observation label.  Labels are [str] values in this
    development (header: the observation column holds strings), and the
    [str] of a [str] is that string.  A column that pandas reads with a
    numeric dtype is outside it: there [obs not in self.alphabet] compares
    a number with the strings already appended and never finds it. *)
Definition str (obs : string) : string := obs.

(** One iteration of the loop of [populate_vars]. *)
Definition populate_row (self : Inference) (r : row) : Inference :=
  let case := row_case r in
  let obs := row_obs r in
  let t := row_time r in
  let dict :=
    match dict_by_obs self !! obs with
    | None => <[obs := {[case := [t]]}]> (dict_by_obs self)
    | Some by_case =>
        match by_case !! case with
        | Some ts => <[obs := <[case := ts ++ [t]]> by_case]> (dict_by_obs self)
        | None => <[obs := <[case := [t]]> by_case]> (dict_by_obs self)
        end
    end in
  let alpha :=
    if decide (obs ∈ alphabet self) then alphabet self
    else alphabet self ++ [str obs] in
  let mt := default (max_time self) (row_time <$> last (source self)) in
  MkInference (source self) (pb self) dict alpha (events self) (traces self)
    mt (hypotheses self) (prima_facie self).

(** [populate_vars] *)
Definition populate_vars (self : Inference) : Inference :=
  let self :=
    MkInference (source self) (pb self) (dict_by_obs self) (alphabet self)
      (length (source self))
      (length (unique (row_case <$> source self)))
      (max_time self) (hypotheses self) (prima_facie self) in
  foldl populate_row self (generate_iterator self (source self)).

(** [__init__], from the data frame that [pd.read_csv] delivered. *)
Definition init (src : list row) (pb : bool) : Inference :=
  populate_vars (MkInference src pb ∅ [] 0 0 0 [] ∅).

(** [generate_hypotheses_for_effects] *)
Definition generate_hypotheses_for_effects (self : Inference)
    (causes effects : list string) : Inference :=
  set_hypotheses
    (effect ← effects;
     cause ← filter (λ cause, cause ≠ effect) causes;
     [(cause, effect)])
    self.

(** ** Prima-facie test *)

(** The body of the loop over [c_e_cases] in [test_cause_effect_pair]. *)
Definition c_before_e_step (subset : list row) (cause effect : string)
    (c_before_e : nat) (case : string) : result nat :=
  let trace := trace_of case subset in
  let obs_values := row_obs <$> trace in
  let time_values := row_time <$> trace in
  if decide (effect ∈ obs_values) then
    let c_times := mask_select time_values obs_values cause in
    let e_times := mask_select time_values obs_values effect in
    lo ← np_min c_times;
    hi ← np_max e_times;
    mret (if decide (lo ≤ hi) then S c_before_e else c_before_e)
  else mret c_before_e.

(** [test_cause_effect_pair].  [set(c_traces).intersection(e_traces)] is
    walked in the order of [c_traces]; the count does not depend on the
    order (see [for_each_c_before_e]). *)
Definition test_cause_effect_pair (self : Inference) (cause effect : string)
    : result (nat * nat * nat) :=
  let subset := isin [cause; effect] (source self) in
  let c_traces := cases_of cause subset in
  let e_traces := cases_of effect subset in
  let c_e_cases := filter (λ case, case ∈ e_traces) c_traces in
  c_before_e ← for_each (c_before_e_step subset cause effect) 0%nat c_e_cases;
  mret (c_before_e, length c_traces, length e_traces).

(** [is_prima_facie] *)
Definition is_prima_facie (self : Inference) (c_and_e c_trues e_trues : nat)
    : result bool :=
  if decide (c_trues = 0%nat) then mret false
  else
    lhs ← truediv (Qnat c_and_e) c_trues;
    rhs ← truediv (Qnat e_trues) (traces self);
    mret (Qgtb lhs rhs).

(** Lines 75-78: add [cause] to the entry of [effect], creating it if
    absent. *)
Definition record_cause (pf : gmap string (list string)) (effect cause : string)
    : gmap string (list string) :=
  match pf !! effect with
  | None => <[effect := [cause]]> pf
  | Some causes => <[effect := causes ++ [cause]]> pf
  end.

(** The body of the loop of [test_for_prima_facie], on the dictionary
    [self.prima_facie]. *)
Definition prima_facie_step (self : Inference)
    (pf : gmap string (list string)) (hypothesis : string * string)
    : result (gmap string (list string)) :=
  let '(cause, effect) := hypothesis in
  '(c_and_e, c_trues, e_trues) ← test_cause_effect_pair self cause effect;
  accepted ← is_prima_facie self c_and_e c_trues e_trues;
  if (accepted : bool) then mret (record_cause pf effect cause)
  else mret pf.

(** [test_for_prima_facie] *)
Definition test_for_prima_facie (self : Inference) : result Inference :=
  pf ← for_each (prima_facie_step self) (prima_facie self)
         (generate_iterator self (hypotheses self));
  mret (set_prima_facie pf self).

(** ** Epsilon averaging *)

(** The four counters of [calculate_probability_differences]. *)
Record counters : Type := Counters {
  c_and_x : nat;
  c_and_x_and_e : nat;
  not_c_and_x : nat;
  not_c_and_x_and_e : nat;
}.

(** The body of the loop over [x_cases]. *)
Definition probability_step (subset : list row) (effect cause x : string)
    (k : counters) (case : string) : result counters :=
  let trace := trace_of case subset in
  let obs_values := row_obs <$> trace in
  let time_values := row_time <$> trace in
  (* counts for c and x *)
  k ←
    (if np_any_eq obs_values cause && np_any_eq obs_values x then
       let k := Counters (S (c_and_x k)) (c_and_x_and_e k) (not_c_and_x k)
                  (not_c_and_x_and_e k) in
       if np_any_eq obs_values effect then
         let c_times := mask_select time_values obs_values cause in
         let x_times := mask_select time_values obs_values x in
         let e_times := mask_select time_values obs_values effect in
         c_lo ← np_min c_times;
         e_hi ← np_max e_times;
         if decide (c_lo ≤ e_hi) then
           x_lo ← np_min x_times;
           e_hi' ← np_max e_times;
           mret (if decide (x_lo ≤ e_hi') then
                   Counters (c_and_x k) (S (c_and_x_and_e k)) (not_c_and_x k)
                     (not_c_and_x_and_e k)
                 else k)
         else mret k
       else mret k
     else mret k);
  (* counts for not c only x *)
  if np_all_ne obs_values cause && np_any_eq obs_values x then
    let k := Counters (c_and_x k) (c_and_x_and_e k) (S (not_c_and_x k))
               (not_c_and_x_and_e k) in
    if np_any_eq obs_values effect then
      let x_times := mask_select time_values obs_values x in
      let e_times := mask_select time_values obs_values effect in
      x_lo ← np_min x_times;
      e_hi ← np_max e_times;
      mret (if decide (x_lo ≤ e_hi) then
              Counters (c_and_x k) (c_and_x_and_e k) (not_c_and_x k)
                (S (not_c_and_x_and_e k))
            else k)
    else mret k
  else mret k.

(** The loop of [calculate_probability_differences]: the counters after
    all [x_cases]. *)
Definition probability_counters (self : Inference) (effect cause x : string)
    : result counters :=
  let subset := isin [cause; effect; x] (source self) in
  let x_cases := cases_of x subset in
  for_each (probability_step subset effect cause x) (Counters 0 0 0 0) x_cases.

(** [calculate_probability_differences] *)
Definition calculate_probability_differences (self : Inference)
    (effect cause x : string) : result Q :=
  k ← probability_counters self effect cause x;
  if decide (c_and_x k = 0%nat ∨ not_c_and_x k = 0%nat) then mret 0%Q
  else
    p ← truediv (Qnat (c_and_x_and_e k)) (c_and_x k);
    p' ← truediv (Qnat (not_c_and_x_and_e k)) (not_c_and_x k);
    mret (p - p')%Q.

(** [get_epsilon_average]; Python's [None] is [None]. *)
Definition get_epsilon_average (self : Inference) (effect cause : string)
    : result (option Q) :=
  causes ←
    match prima_facie self !! effect with
    | Some causes => Ok causes
    | None => Raise KeyError
    end;
  let other_causes := filter (λ x, x ≠ cause) causes in
  if decide (length other_causes ≠ 0%nat) then
    eps_x ← for_each
      (λ eps_x x,
         d ← calculate_probability_differences self effect cause x;
         mret (eps_x + d)%Q)
      0%Q other_causes;
    avg ← truediv eps_x (length other_causes);
    mret (Some avg)
  else mret None.

(** ** Window primitives (static methods) *)

(** [get_overlap(window1, window2)] *)
Definition get_overlap (window1 window2 : Z * Z) : option (Z * Z) :=
  let '(r, s) := window1 in
  let '(p, q) := window2 in
  (* (r, s) must always represent the first time window *)
  let '((r, s), (p, q)) :=
    if decide (p < r) then (window2, window1) else ((r, s), (p, q)) in
  if decide (s < p) then None else Some (p, s).

(** [get_only_x(window_c, window_x)] *)
Definition get_only_x (window_c window_x : Z * Z) : option (Z * Z) :=
  let '(r, s) := window_c in
  let '(p, q) := window_x in
  if decide (r < p) then Some (s, q)
  else if decide (p < r) then Some (p, r)
  else None.

(** The closed interval denoted by a window, and the intersection of two
    closed intervals as the specification words it. *)
Definition in_window (t : Z) (w : Z * Z) : Prop := w.1 ≤ t ≤ w.2.

Definition intersect (w1 w2 : Z * Z) : Prop := ∃ t, in_window t w1 ∧ in_window t w2.

Definition intersection_interval (w1 w2 : Z * Z) : Z * Z :=
  (Z.max w1.1 w2.1, Z.min w1.2 w2.2).

(** The window that starts first also ends first (both start and end
    together when the starts coincide).  Windows of one common width, the
    only ones [get_ands] builds, are always so ordered. *)
Definition same_order (w1 w2 : Z * Z) : Prop :=
  (w1.1 < w2.1 ∧ w1.2 ≤ w2.2) ∨ (w2.1 < w1.1 ∧ w2.2 ≤ w1.2) ∨ (w1.1 = w2.1 ∧ w1.2 = w2.2).

(** A timepoint dictionary [{t: [case, ...]}], as the list of its items in
    insertion order (the order in which Python walks it); [for t in d]
    followed by [d[t]] walks these items. *)
Abbreviation timepoints := (list (Z * list string)).

(** [get_ands(c_trues, x_trues, window)] *)
Definition get_ands (c_trues x_trues : timepoints) (window : Z * Z)
    : list ((Z * Z) * list string) :=
  let '(r, s) := window in
  let range := s - r in
  '(t, c_cases) ← c_trues;
  let window1 := (t + r, t + s) in
  let x_candidates :=
    filter (λ item : Z * list string, item.1 >= t - range ∧ item.1 ≤ t + range)
      x_trues in
  '(cand, x_cases) ← x_candidates;
  let intersection := filter (λ c, c ∈ x_cases) c_cases in
  let window2 := (cand + r, cand + s) in
  match get_overlap window1 window2 with
  | Some overlap =>
      if decide (length intersection ≠ 0%nat) then [(overlap, intersection)]
      else []
  | None => []
  end.

(** [get_nots(c_trues, x_trues, window)] *)
Definition get_nots (c_trues x_trues : timepoints) (window : Z * Z)
    : list ((Z * Z) * list string) :=
  let '(r, s) := window in
  let range := s - r in
  '(t, c_cases) ← c_trues;
  let window1 := (t + r, t + s) in
  let x_candidates :=
    filter (λ item : Z * list string, item.1 >= t - range ∧ item.1 ≤ t + range)
      x_trues in
  '(cand, x_cases) ← x_candidates;
  let intersection := filter (λ c, c ∈ x_cases) c_cases in
  let window2 := (cand + r, cand + s) in
  (if decide (length intersection = 0%nat) then [(window2, intersection)]
   else [])
  ++ match get_only_x window1 window2 with
     | Some only_x => [(only_x, intersection)]
     | None => []
     end.

(** The inner loop of [count_effect]: walk [e_trues] until the first
    qualifying timepoint, then count the entry once and [break]. *)
Fixpoint count_effect_scan (e_trues : timepoints) (ws we : Z)
    (intersection : list string) (res : nat) : nat :=
  match e_trues with
  | [] => res
  | (e, e_cases) :: rest =>
      let inter := filter (λ e_case, e_case ∈ intersection) e_cases in
      if decide (e >= ws ∧ e ≤ we ∧ length inter ≠ 0%nat) then S res
      else count_effect_scan rest ws we intersection res
  end.

(** [count_effect(e_trues, windows)] *)
Definition count_effect (e_trues : timepoints)
    (windows : list ((Z * Z) * list string)) : nat :=
  foldl (λ res '((ws, we), intersection),
           count_effect_scan e_trues ws we intersection res)
    0%nat windows.

(** An entry qualifies when some effect timepoint lies in its closed
    interval and shares a case with its case set. *)
Definition qualifies (e_trues : timepoints) (entry : (Z * Z) * list string)
    : Prop :=
  ∃ e e_cases case, (e, e_cases) ∈ e_trues ∧ in_window e entry.1
    ∧ case ∈ e_cases ∧ case ∈ entry.2.

(** ** Vocabulary of the specification *)

(** The case contains an event with the observation [label]. *)
Definition occurs_in (src : list row) (label case : string) : Prop :=
  ∃ r, r ∈ src ∧ row_case r = case ∧ row_obs r = label.

(** The case occurs in the log. *)
Definition case_of_log (src : list row) (case : string) : Prop :=
  ∃ r, r ∈ src ∧ row_case r = case.

(** The timestamps of [label] within the case, in log order. *)
Definition times_of (src : list row) (label case : string) : list Z :=
  row_time <$> filter (λ r, row_case r = case ∧ row_obs r = label) src.

Definition is_min (m : Z) (l : list Z) : Prop := m ∈ l ∧ ∀ t, t ∈ l → m ≤ t.
Definition is_max (m : Z) (l : list Z) : Prop := m ∈ l ∧ ∀ t, t ∈ l → t ≤ m.

(** Weak precedence: within the case, the earliest timestamp of [cause]
    is at most the latest timestamp of [effect]. *)
Definition weakly_precedes (src : list row) (cause effect case : string) : Prop :=
  ∃ lo hi, is_min lo (times_of src cause case)
    ∧ is_max hi (times_of src effect case) ∧ lo ≤ hi.

(** [n] is the number of cases that satisfy [P]. *)
Definition counts_cases (n : nat) (P : string → Prop) : Prop :=
  ∃ l : list string, NoDup l ∧ (∀ case, case ∈ l ↔ P case) ∧ n = length l.

(** [self.traces] is the number of distinct case identifiers of
    [self.source], as [populate_vars] sets it. *)
Definition built_from_log (self : Inference) : Prop :=
  traces self = length (unique (row_case <$> source self)).

(** The term Δ(effect, cause, x): what
    [calculate_probability_differences] returns (it never raises, see
    [calculate_probability_differences_returns]). *)
Definition delta (self : Inference) (effect cause x : string) : Q :=
  match calculate_probability_differences self effect cause x with
  | Ok d => d
  | Raise _ => 0%Q
  end.

Definition Qsum (l : list Q) : Q := foldr Qplus 0%Q l.

(** The arithmetic mean of a list of rationals. *)
Definition mean (l : list Q) : Q := (Qsum l / Qnat (length l))%Q.

(** The decision on a hypothesis: [True] when [is_prima_facie] returns
    [True] on the counters of [test_cause_effect_pair]. *)
Definition accepts (self : Inference) (cause effect : string) : bool :=
  match test_cause_effect_pair self cause effect with
  | Ok (c_and_e, c_trues, e_trues) =>
      match is_prima_facie self c_and_e c_trues e_trues with
      | Ok accepted => accepted
      | Raise _ => false
      end
  | Raise _ => false
  end.

(** The causes listed for an effect; none when the effect has no entry. *)
Definition entry (pf : gmap string (list string)) (effect : string) : list string :=
  default [] (pf !! effect).

(** The causes of the accepted hypotheses on [effect], in the order of the
    hypothesis list. *)
Definition accepted_causes (self : Inference) (effect : string)
    (hyps : list (string * string)) : list string :=
  (filter (λ h : string * string, h.2 = effect ∧ accepts self h.1 h.2 = true)
     hyps).*1.

(** [dict_by_obs[obs][case]], when both keys are present. *)
Definition stored (dict : gmap string (gmap string (list Z)))
    (obs case : string) : option (list Z) :=
  by_case ← dict !! obs; by_case !! case.

(** The log is in ascending order of time. *)
Definition ascending (src : list row) : Prop :=
  StronglySorted (λ a b, row_time a ≤ row_time b) src.

(** [calculate_average_epsilons]: the rows written after the header
    line, each as the triple (cause, effect, epsilon) that one
    [f.write] formats.  [effects] is the order in which Python walks the
    keys of [self.prima_facie] (their insertion order). *)
Definition write_effect_rows (self : Inference)
    (rows : list (string * string * option Q)) (effect : string)
    : result (list (string * string * option Q)) :=
  causes ←
    match prima_facie self !! effect with
    | Some causes => Ok causes
    | None => Raise KeyError
    end;
  for_each
    (λ rows cause,
       epsilon_avg ← get_epsilon_average self effect cause;
       mret (rows ++ [(cause, effect, epsilon_avg)]))
    rows (generate_iterator self causes).

Definition calculate_average_epsilons (self : Inference) (effects : list string)
    : result (list (string * string * option Q)) :=
  for_each (write_effect_rows self) [] effects.

(** ** A small log

    Six cases.  [A] occurs in cases 1, 2, 3; [X] in cases 1, 2, 5, 6; [B]
    in cases 1, 2, 5, always after [A] and [X]; [C] alone in case 4. *)
Definition example_log : list row :=
  [ Row "1" "A" 1; Row "2" "A" 1; Row "3" "A" 1; Row "4" "C" 1;
    Row "5" "X" 1; Row "6" "X" 1; Row "1" "X" 2; Row "2" "X" 2;
    Row "5" "B" 2; Row "1" "B" 3; Row "2" "B" 3 ].

Definition example_self : Inference :=
  generate_hypotheses_for_effects (init example_log false) ["A"; "X"; "C"] ["B"].

(** The object that the first call of [test_for_prima_facie] returns:
    [A] and [X] recorded for [B]. *)
Definition example_scored : Inference :=
  set_prima_facie {["B" := ["A"; "X"]]} example_self.

(** ** A log on which an entry comes to repeat a cause

    Nine cases.  [A] occurs in cases 1 to 4, [X] in cases 1, 2 and 5, [C]
    in cases 5 and 6, [B] in cases 1, 2, 3 and 5, always last; cases 7 to
    9 hold [D] alone. *)
Definition repeated_log : list row :=
  [ Row "1" "A" 1; Row "2" "A" 1; Row "3" "A" 1; Row "4" "A" 1;
    Row "5" "C" 1; Row "6" "C" 1; Row "7" "D" 1; Row "8" "D" 1;
    Row "9" "D" 1; Row "1" "X" 2; Row "2" "X" 2; Row "3" "B" 2;
    Row "5" "X" 2; Row "1" "B" 3; Row "2" "B" 3; Row "5" "B" 3 ].

(** The calls [generate_hypotheses_for_effects(["A", "X", "C"], ["B"])],
    [test_for_prima_facie()], [generate_hypotheses_for_effects(["A"],
    ["B"])], [test_for_prima_facie()] on one object. *)
Definition repeated_run : result Inference :=
  self ← test_for_prima_facie
           (generate_hypotheses_for_effects (init repeated_log false)
              ["A"; "X"; "C"] ["B"]);
  test_for_prima_facie (generate_hypotheses_for_effects self ["A"] ["B"]).

(** The object these four calls leave: [A] recorded twice for [B]. *)
Definition repeated_self : Inference :=
  set_prima_facie {["B" := ["A"; "X"; "C"; "A"]]}
    (generate_hypotheses_for_effects (init repeated_log false) ["A"] ["B"]).

#[global] Instance occurs_in_dec src label case :
  Decision (occurs_in src label case).
Proof.
  refine (cast_if (decide (Exists (λ r, row_case r = case ∧ row_obs r = label) src)));
    unfold occurs_in; rewrite Exists_exists in *; naive_solver.
Defined.

Arguments occurs_in_dec : simpl never.

(** [n] is the number of cases of the list [cases] that satisfy [P]. *)
Definition tally (P : string → Prop) (cases : list string) (n : nat) : Prop :=
  ∃ counted : list string,
    NoDup counted ∧ (∀ case, case ∈ counted ↔ case ∈ cases ∧ P case)
    ∧ n = length counted.

#[global] Instance in_window_dec t w : Decision (in_window t w).
Proof. unfold in_window. apply _. Defined.

#[global] Instance qualifies_dec e_trues entry : Decision (qualifies e_trues entry).
Proof.
  refine (cast_if (decide (Exists (λ item : Z * list string,
            in_window item.1 entry.1 ∧ Exists (λ case, case ∈ entry.2) item.2)
            e_trues))).
  - apply Exists_exists in e as ([e0 e_cases] & Hin & Hw & Hex).
    apply Exists_exists in Hex as (case & Hc & Hc').
    exists e0, e_cases, case. auto.
  - intros (e0 & e_cases & case & Hin & Hw & Hc & Hc'). apply n.
    apply Exists_exists. exists (e0, e_cases). split; [done|]. split; [done|].
    apply Exists_exists. eauto.
Defined.

Arguments qualifies_dec : simpl never.

(** * Properties *)

(** ** Windows *)

Lemma same_width_same_order (w1 w2 : Z * Z) :
  w1.2 - w1.1 = w2.2 - w2.1 → same_order w1 w2.
Proof. destruct w1 as [r s], w2 as [p q]; unfold same_order; simpl; lia. Qed.

Lemma same_order_sym (w1 w2 : Z * Z) : same_order w1 w2 → same_order w2 w1.
Proof. unfold same_order; intuition lia. Qed.

Lemma intersect_iff (w1 w2 : Z * Z) :
  w1.1 ≤ w1.2 → w2.1 ≤ w2.2 →
  intersect w1 w2 ↔ w1.1 ≤ w2.2 ∧ w2.1 ≤ w1.2.
Proof.
  destruct w1 as [r s], w2 as [p q]; unfold intersect, in_window; simpl.
  intros Hrs Hpq. split.
  - intros (t & ? & ?). lia.
  - intros [? ?]. exists (Z.max r p). lia.
Qed.

(** What [get_overlap] computes on any two windows: the later start,
    paired with the end of the window that starts first. *)
Lemma get_overlap_unfold (r s p q : Z) :
  get_overlap (r, s) (p, q) =
    if decide (p < r) then (if decide (q < r) then None else Some (r, q))
    else (if decide (s < p) then None else Some (p, s)).
Proof. unfold get_overlap. by destruct (decide (p < r)). Qed.

(** The windows that [get_ands] hands to [get_overlap] have one width. *)
Lemma get_ands_windows_same_width (t cand r s : Z) :
  same_order (t + r, t + s) (cand + r, cand + s).
Proof. apply same_width_same_order; simpl; lia. Qed.

(** The windows of a [c] timepoint and of one of its [x_candidates], as
    [get_ands] and [get_nots] build them, overlap and are ordered alike. *)
Lemma candidate_windows_overlap (t cand r s : Z) :
  r ≤ s → cand >= t - (s - r) ∧ cand ≤ t + (s - r) →
  intersect (t + r, t + s) (cand + r, cand + s)
  ∧ same_order (t + r, t + s) (cand + r, cand + s).
Proof.
  intros Hrs [Hlo Hhi]. split; [|apply get_ands_windows_same_width].
  apply intersect_iff; simpl; lia.
Qed.

(** C5, counterexample: on a window nested in the other the result is
    not the intersection ([get_overlap((0,10),(3,5))] is [(3,10)], the
    intersection is [(3,5)]), and on two windows with one start and
    different ends the result depends on the argument order. *)
Lemma get_overlap_nested_counterexample :
  intersect (0, 10) (3, 5)
  ∧ intersection_interval (0, 10) (3, 5) = (3, 5)
  ∧ get_overlap (0, 10) (3, 5) = Some (3, 10)
  ∧ get_overlap (0, 10) (0, 5) = Some (0, 10)
  ∧ get_overlap (0, 5) (0, 10) = Some (0, 5)
  ∧ ¬ (∀ w1 w2 : Z * Z, w1.1 ≤ w1.2 → w2.1 ≤ w2.2 →
         (intersect w1 w2 → get_overlap w1 w2 = Some (intersection_interval w1 w2))
         ∧ (¬ intersect w1 w2 → get_overlap w1 w2 = None)
         ∧ get_overlap w1 w2 = get_overlap w2 w1).
Proof.
  assert (Hx : intersect (0, 10) (3, 5)) by (exists 3; unfold in_window; simpl; lia).
  repeat split; try done.
  intros H. destruct (H (0, 10) (3, 5)) as (Hi & _ & _); simpl; [lia | lia |].
  specialize (Hi Hx). discriminate Hi.
Qed.

(** On two closed windows ordered alike, [get_overlap] is the
    intersection, or [None] when there is none, in either argument order. *)
Lemma get_overlap_ordered (w1 w2 : Z * Z) :
  w1.1 ≤ w1.2 → w2.1 ≤ w2.2 → same_order w1 w2 →
  (intersect w1 w2 → get_overlap w1 w2 = Some (intersection_interval w1 w2))
  ∧ (w1.2 < w2.1 ∨ w2.2 < w1.1 ↔ get_overlap w1 w2 = None)
  ∧ (¬ intersect w1 w2 ↔ get_overlap w1 w2 = None)
  ∧ get_overlap w1 w2 = get_overlap w2 w1.
Proof.
  intros H1 H2 Hso. rewrite (intersect_iff w1 w2 H1 H2).
  destruct w1 as [r s], w2 as [p q]. rewrite (get_overlap_unfold p q r s).
  rewrite get_overlap_unfold. unfold intersection_interval, same_order in *.
  simpl in *.
  repeat split; try done;
    repeat case_decide; try intros; try done; try lia;
    try (f_equal; f_equal; lia).
Qed.

(** Every entry of [get_ands] pairs the intersection of the window of a
    [c] timepoint and the window of an [x] timepoint with the cases the
    two timepoints share, of which there is at least one. *)
Lemma get_ands_entries (c_trues x_trues : timepoints) (r s : Z)
    (entry : (Z * Z) * list string) :
  r ≤ s → entry ∈ get_ands c_trues x_trues (r, s) →
  ∃ t c_cases cand x_cases,
    (t, c_cases) ∈ c_trues ∧ (cand, x_cases) ∈ x_trues
    ∧ intersect (t + r, t + s) (cand + r, cand + s)
    ∧ entry.1 = intersection_interval (t + r, t + s) (cand + r, cand + s)
    ∧ entry.2 = filter (λ c, c ∈ x_cases) c_cases
    ∧ entry.2 ≠ [].
Proof.
  intros Hrs Hin. unfold get_ands in Hin.
  apply list_elem_of_bind in Hin as ([t c_cases] & Hin & Ht).
  apply list_elem_of_bind in Hin as ([cand x_cases] & Hin & Hcand).
  apply list_elem_of_filter in Hcand as [_ Hcand].
  destruct (get_overlap_ordered (t + r, t + s) (cand + r, cand + s))
    as (Hi & _ & Hn & _); [simpl; lia | simpl; lia | apply get_ands_windows_same_width |].
  destruct (get_overlap (t + r, t + s) (cand + r, cand + s)) as [overlap|] eqn:Ho;
    [|by apply elem_of_nil in Hin].
  case_decide as Hlen; [|by apply elem_of_nil in Hin].
  apply list_elem_of_singleton in Hin as ->.
  assert (Hx : intersect (t + r, t + s) (cand + r, cand + s)).
  { pose proof (intersect_iff (t + r, t + s) (cand + r, cand + s)) as Hiff.
    simpl in Hiff. specialize (Hiff ltac:(lia) ltac:(lia)).
    destruct (decide (t + r ≤ cand + s ∧ cand + r ≤ t + s)) as [Hyes|Hno];
      [by apply Hiff|].
    rewrite <- Hiff in Hno. by apply Hn in Hno. }
  exists t, c_cases, cand, x_cases. split; [done|]. split; [done|].
  split; [done|]. simpl. split; [by specialize (Hi Hx) as [= ->]|].
  split; [done|]. intros Hnil. by rewrite Hnil in Hlen.
Qed.

(** C5, amended: for two closed windows of which the one that starts
    first also ends first (as any two windows of the same width do),
    [get_overlap] returns their intersection when they intersect, [None]
    when one ends strictly before the other begins, and does not depend on
    the argument order. *)
Theorem get_overlap_same_order (w1 w2 : Z * Z) :
  w1.1 ≤ w1.2 → w2.1 ≤ w2.2 → same_order w1 w2 →
  (intersect w1 w2 → get_overlap w1 w2 = Some (intersection_interval w1 w2))
  ∧ (w1.2 < w2.1 ∨ w2.2 < w1.1 ↔ get_overlap w1 w2 = None)
  ∧ (¬ intersect w1 w2 ↔ get_overlap w1 w2 = None)
  ∧ get_overlap w1 w2 = get_overlap w2 w1
  ∧ get_overlap (0, 5) (3, 8) = Some (3, 5)
  ∧ get_overlap (0, 5) (6, 9) = None.
Proof.
  intros H1 H2 Hso.
  destruct (get_overlap_ordered w1 w2 H1 H2 Hso) as (Hi & Hd & Hn & Hs).
  repeat split; try done; by apply Hd || by apply Hn.
Qed.

Lemma get_overlap_same_order_witness :
  (0, 5).1 ≤ (0, 5).2 ∧ (3, 8).1 ≤ (3, 8).2 ∧ same_order (0, 5) (3, 8)
  ∧ (intersect (0, 5) (3, 8) →
     get_overlap (0, 5) (3, 8) = Some (intersection_interval (0, 5) (3, 8)))
  ∧ get_overlap (0, 5) (3, 8) = get_overlap (3, 8) (0, 5).
Proof.
  assert (H1 : (0, 5).1 ≤ (0, 5).2) by (simpl; lia).
  assert (H2 : (3, 8).1 ≤ (3, 8).2) by (simpl; lia).
  assert (H3 : same_order (0, 5) (3, 8)) by (unfold same_order; simpl; lia).
  destruct (get_overlap_same_order (0, 5) (3, 8) H1 H2 H3) as (Hi & _ & _ & Hs & _).
  split; [exact H1|]. split; [exact H2|]. split; [exact H3|].
  split; [exact Hi | exact Hs].
Defined.

(** The three branches of [get_only_x]: it returns [None] exactly when the two windows start at
    the same point; when [window_c] starts first it returns the stretch
    from the end of [window_c] to the end of [window_x], and when
    [window_x] starts first the stretch from the start of [window_x] to
    the start of [window_c]. *)
Theorem get_only_x_spec (r s p q : Z) :
  (get_only_x (r, s) (p, q) = None ↔ r = p)
  ∧ (r < p → get_only_x (r, s) (p, q) = Some (s, q))
  ∧ (p < r → get_only_x (r, s) (p, q) = Some (p, r))
  ∧ get_only_x (0, 5) (0, 5) = None
  ∧ get_only_x (0, 5) (5, 9) = Some (5, 9)
  ∧ get_only_x (5, 9) (0, 5) = Some (0, 5).
Proof.
  unfold get_only_x. repeat split; try done;
    repeat case_decide; try intros; try done; try lia.
Qed.

(** X24: on two overlapping windows of which the one that starts first
    also ends first, the result of [get_only_x] is the part of [window_x]
    outside [window_c], closed at the end it shares with [window_c]. *)
Lemma get_only_x_portion (window_c window_x only_x : Z * Z) (t : Z) :
  window_c.1 ≤ window_c.2 → window_x.1 ≤ window_x.2 →
  same_order window_c window_x → intersect window_c window_x →
  get_only_x window_c window_x = Some only_x →
  (in_window t window_x ∧ ¬ in_window t window_c → in_window t only_x)
  ∧ (in_window t only_x → in_window t window_x
       ∧ (¬ in_window t window_c ∨ t = window_c.1 ∨ t = window_c.2)).
Proof.
  intros H1 H2 Hso Hi. apply intersect_iff in Hi; [|done..].
  destruct window_c as [r s], window_x as [p q]. unfold get_only_x.
  unfold same_order, in_window in *. simpl in *.
  repeat case_decide; intros Heq; simplify_eq; simpl; lia.
Qed.

(** C8, counterexample: on two windows with different starts that do not
    overlap, or of which one lies inside the other, the result is not a
    portion of either window: [get_only_x((0,2),(5,9))] is [(2,9)], which
    holds 3, a point of neither window, and [get_only_x((0,10),(3,5))] is
    the inverted pair [(10,5)], which holds no point though [window_x]
    does. *)
Lemma get_only_x_disjoint_counterexample :
  get_only_x (0, 2) (5, 9) = Some (2, 9)
  ∧ in_window 3 (2, 9) ∧ ¬ in_window 3 (0, 2) ∧ ¬ in_window 3 (5, 9)
  ∧ get_only_x (0, 10) (3, 5) = Some (10, 5)
  ∧ (∀ t, ¬ in_window t (10, 5))
  ∧ ¬ (∀ window_c window_x : Z * Z,
         window_c.1 ≤ window_c.2 → window_x.1 ≤ window_x.2 →
         window_c.1 ≠ window_x.1 →
         ∃ only_x, get_only_x window_c window_x = Some only_x
           ∧ ∀ t, in_window t only_x →
                  in_window t window_c ∨ in_window t window_x).
Proof.
  split; [done|]. split; [unfold in_window; simpl; lia|].
  split; [unfold in_window; simpl; lia|].
  split; [unfold in_window; simpl; lia|]. split; [done|].
  split; [intros t; unfold in_window; simpl; lia|].
  intros H. destruct (H (0, 2) (5, 9)) as (only_x & Hret & Hsub);
    [simpl; lia..|].
  injection Hret as <-. specialize (Hsub 3). unfold in_window in Hsub.
  simpl in Hsub. lia.
Qed.

(** C8, amended: on two closed windows that overlap and of which the
    one that starts first also ends first (as the equal-width windows of
    [get_nots] do), [get_only_x] returns [None] exactly when they start at
    the same point, and otherwise the portion of [window_x] that extends
    beyond [window_c]: an interval inside [window_x] that holds every
    point of [window_x] outside [window_c] and meets [window_c] in an end
    point only.  On any two windows it returns [None] exactly when the
    starts are equal. *)
Theorem get_only_x_overlapping (window_c window_x : Z * Z) :
  window_c.1 ≤ window_c.2 → window_x.1 ≤ window_x.2 →
  same_order window_c window_x → intersect window_c window_x →
  (get_only_x window_c window_x = None ↔ window_c.1 = window_x.1)
  ∧ (window_c.1 ≠ window_x.1 →
     ∃ only_x,
       get_only_x window_c window_x = Some only_x
       ∧ only_x.1 ≤ only_x.2
       ∧ (only_x = (window_c.2, window_x.2) ∨ only_x = (window_x.1, window_c.1))
       ∧ ∀ t,
           (in_window t window_x ∧ ¬ in_window t window_c → in_window t only_x)
           ∧ (in_window t only_x →
              in_window t window_x
              ∧ (¬ in_window t window_c ∨ t = window_c.1 ∨ t = window_c.2)))
  ∧ (∀ r s p q, get_only_x (r, s) (p, q) = None ↔ r = p)
  ∧ get_only_x (0, 5) (0, 5) = None
  ∧ get_only_x (0, 5) (5, 9) = Some (5, 9)
  ∧ get_only_x (5, 9) (0, 5) = Some (0, 5).
Proof.
  intros H1 H2 Hso Hi. apply intersect_iff in Hi; [|done..].
  destruct window_c as [r s], window_x as [p q].
  unfold get_only_x, same_order, in_window in *. simpl in *.
  split; [repeat case_decide; split; intros; try done; lia|].
  split.
  - intros Hne. repeat case_decide; try lia; eexists; (split; [done|]);
      simpl; (split; [lia|]); (split; [auto|]); intros t; lia.
  - split; [|done]. intros r' s' p' q'.
    repeat case_decide; split; intros; try done; lia.
Qed.

Lemma get_only_x_overlapping_witness :
  (0, 5).1 ≤ (0, 5).2 ∧ (5, 9).1 ≤ (5, 9).2 ∧ same_order (0, 5) (5, 9)
  ∧ intersect (0, 5) (5, 9)
  ∧ ((0, 5).1 ≠ (5, 9).1 →
     ∃ only_x,
       get_only_x (0, 5) (5, 9) = Some only_x
       ∧ only_x.1 ≤ only_x.2
       ∧ (only_x = ((0, 5).2, (5, 9).2) ∨ only_x = ((5, 9).1, (0, 5).1))
       ∧ ∀ t,
           (in_window t (5, 9) ∧ ¬ in_window t (0, 5) → in_window t only_x)
           ∧ (in_window t only_x →
              in_window t (5, 9)
              ∧ (¬ in_window t (0, 5) ∨ t = (0, 5).1 ∨ t = (0, 5).2))).
Proof.
  assert (H1 : (0, 5).1 ≤ (0, 5).2) by (simpl; lia).
  assert (H2 : (5, 9).1 ≤ (5, 9).2) by (simpl; lia).
  assert (H3 : same_order (0, 5) (5, 9)) by (unfold same_order; simpl; lia).
  assert (H4 : intersect (0, 5) (5, 9))
    by (exists 5; unfold in_window; simpl; lia).
  split; [exact H1|]. split; [exact H2|]. split; [exact H3|].
  split; [exact H4|].
  exact (proj1 (proj2 (get_only_x_overlapping (0, 5) (5, 9) H1 H2 H3 H4))).
Defined.

(** ** Counting effects in windows *)

Lemma count_effect_scan_spec e_trues ws we intersection res :
  count_effect_scan e_trues ws we intersection res =
    if decide (qualifies e_trues ((ws, we), intersection)) then S res else res.
Proof.
  induction e_trues as [|[e e_cases] rest IH]; cbn [count_effect_scan].
  - case_decide as Hq; [|done].
    destruct Hq as (? & ? & ? & Hin & _). by apply elem_of_nil in Hin.
  - destruct (decide (e >= ws ∧ e ≤ we ∧ _)) as [(Hge & Hle & Hne)|Hno].
    + rewrite decide_True; [done|].
      destruct (filter _ e_cases) as [|case l] eqn:Hf; [done|].
      assert (Hc : case ∈ filter (λ e_case, e_case ∈ intersection) e_cases)
        by (rewrite Hf; left).
      apply list_elem_of_filter in Hc as [Hc1 Hc2].
      exists e, e_cases, case. repeat split; simpl; [left | lia | lia | done | done].
    + rewrite IH. apply decide_ext. split.
      * intros (e0 & cs & case & Hin & Hw & Hc & Hc'). exists e0, cs, case.
        split; [by right | done].
      * intros (e0 & cs & case & Hin & Hw & Hc & Hc').
        apply elem_of_cons in Hin as [[= -> ->]|Hin].
        -- exfalso. apply Hno. destruct Hw as [Hw1 Hw2]. simpl in *.
           repeat split; [lia | lia |].
           assert (Hc2 : case ∈ filter (λ e_case, e_case ∈ intersection) e_cases)
             by (apply list_elem_of_filter; done).
           destruct (filter _ e_cases); [by apply elem_of_nil in Hc2 | done].
        -- exists e0, cs, case. done.
Qed.

Lemma count_effect_foldl e_trues windows res :
  foldl (λ res '((ws, we), intersection),
           count_effect_scan e_trues ws we intersection res) res windows
  = (res + length (filter (qualifies e_trues) windows))%nat.
Proof.
  revert res. induction windows as [|[[ws we] inter] rest IH]; intros res; simpl.
  - lia.
  - rewrite IH, count_effect_scan_spec, filter_cons.
    repeat case_decide; simpl; lia.
Qed.

(** C9: [count_effect] is the number of entries in which some effect
    timepoint lies in the entry's closed interval and shares a case with
    the entry's case set; an entry counts once however many such
    timepoints it has, so the result is at most the number of entries. *)
Theorem count_effect_spec (e_trues : timepoints)
    (windows : list ((Z * Z) * list string)) :
  count_effect e_trues windows = length (filter (qualifies e_trues) windows)
  ∧ (count_effect e_trues windows ≤ length windows)%nat
  ∧ (∀ entry, count_effect e_trues [entry] =
        if decide (qualifies e_trues entry) then 1%nat else 0%nat).
Proof.
  unfold count_effect. split; [|split].
  - by rewrite count_effect_foldl.
  - rewrite count_effect_foldl. simpl. apply length_filter.
  - intros entry. rewrite count_effect_foldl. rewrite filter_cons. simpl.
    by case_decide.
Qed.

(** ** The event log *)

Section unique.
Context `{EqDecision A}.
Implicit Types l : list A.

Lemma elem_of_unique l x : x ∈ unique l ↔ x ∈ l.
Proof.
  induction l as [|y l IH]; simpl; [done|].
  rewrite !elem_of_cons, list_elem_of_filter, IH.
  destruct (decide (x = y)); naive_solver.
Qed.

Lemma NoDup_unique l : NoDup (unique l).
Proof.
  induction l as [|y l IH]; simpl; [constructor|].
  apply NoDup_cons. split; [|by apply NoDup_filter].
  rewrite list_elem_of_filter. naive_solver.
Qed.
End unique.

Lemma filter_all {A : Type} (P : A → Prop) `{∀ x, Decision (P x)} (l : list A) :
  (∀ x, x ∈ l → P x) → filter P l = l.
Proof.
  induction l as [|x l IH]; intros Hall; [done|].
  rewrite filter_cons_True by (apply Hall; left). f_equal.
  apply IH. intros y Hy. apply Hall. by right.
Qed.

(** A list without repeats is its own list of distinct values. *)
Lemma unique_NoDup_id `{EqDecision A} (l : list A) : NoDup l → unique l = l.
Proof.
  induction 1 as [|x l Hx Hnd IH]; [done|]. cbn. rewrite IH. f_equal.
  apply filter_all. intros y Hy ->. done.
Qed.

Lemma counts_cases_unique_list (l : list string) :
  counts_cases (length (unique l)) (λ case, case ∈ l).
Proof.
  exists (unique l). split; [apply NoDup_unique|]. split; [|done].
  intros case. apply elem_of_unique.
Qed.

Lemma counts_cases_ext (n : nat) (P Q : string → Prop) :
  (∀ case, P case ↔ Q case) → counts_cases n P → counts_cases n Q.
Proof.
  intros HPQ (l & Hnd & Hl & Hn). exists l. split; [done|]. split; [|done].
  intros case. by rewrite Hl.
Qed.

(** The number of cases that satisfy a predicate is determined by it. *)
Lemma counts_cases_functional (n m : nat) (P : string → Prop) :
  counts_cases n P → counts_cases m P → n = m.
Proof.
  intros (l & Hnd & Hl & ->) (k & Hnd' & Hk & ->).
  apply Permutation_length, NoDup_Permutation; [done..|].
  intros case. by rewrite Hl, Hk.
Qed.

Lemma mask_select_fmap (tr : list row) (label : string) :
  mask_select (row_time <$> tr) (row_obs <$> tr) label
  = row_time <$> filter (λ r, row_obs r = label) tr.
Proof.
  induction tr as [|r tr IH]; [done|]. cbn [fmap list_fmap mask_select].
  rewrite filter_cons. case_decide; [|done]. by rewrite IH.
Qed.

Lemma trace_times (labels : list string) (src : list row) (label case : string) :
  label ∈ labels →
  mask_select (row_time <$> trace_of case (isin labels src))
    (row_obs <$> trace_of case (isin labels src)) label
  = times_of src label case.
Proof.
  intros Hl. rewrite mask_select_fmap. unfold trace_of, isin, times_of.
  rewrite !list_filter_filter. f_equal. apply list_filter_iff.
  intros r. naive_solver.
Qed.

Lemma trace_obs (labels : list string) (src : list row) (label case : string) :
  label ∈ labels →
  label ∈ row_obs <$> trace_of case (isin labels src) ↔ occurs_in src label case.
Proof.
  intros Hl. unfold trace_of, isin, occurs_in. rewrite list_elem_of_fmap.
  setoid_rewrite list_elem_of_filter. setoid_rewrite list_elem_of_filter.
  naive_solver.
Qed.

Lemma cases_of_isin (labels : list string) (src : list row) (label : string) :
  label ∈ labels → cases_of label (isin labels src) = cases_of label src.
Proof.
  intros Hl. unfold cases_of, isin. do 2 f_equal.
  rewrite list_filter_filter. apply list_filter_iff. naive_solver.
Qed.

Lemma elem_of_cases_of (src : list row) (label case : string) :
  case ∈ cases_of label src ↔ occurs_in src label case.
Proof.
  unfold cases_of, occurs_in. rewrite elem_of_unique, list_elem_of_fmap.
  setoid_rewrite list_elem_of_filter. naive_solver.
Qed.

Lemma times_of_nonempty (src : list row) (label case : string) :
  times_of src label case ≠ [] ↔ occurs_in src label case.
Proof.
  unfold times_of, occurs_in. split.
  - intros Hne. destruct (filter _ src) as [|r l] eqn:Hf; [done|].
    assert (Hr : r ∈ filter (λ r, row_case r = case ∧ row_obs r = label) src)
      by (rewrite Hf; left).
    apply list_elem_of_filter in Hr. naive_solver.
  - intros (r & Hr & Hc & Ho) Hnil. apply fmap_nil_inv in Hnil.
    pose proof (filter_nil_not_elem_of _ _ r Hnil) as Hn. by apply Hn.
Qed.

(** [np.min] and [np.max] *)

Lemma foldl_min_spec (ts : list Z) (t : Z) : is_min (foldl Z.min t ts) (t :: ts).
Proof.
  revert t. induction ts as [|u ts IH]; intros t; simpl.
  - split; [left | intros x Hx; apply list_elem_of_singleton in Hx; lia].
  - destruct (IH (Z.min t u)) as [Hin Hle]. split.
    + apply elem_of_cons in Hin as [Heq|Hin].
      * rewrite Heq. destruct (Z.min_spec t u) as [[_ ->]|[_ ->]];
          [left | right; left].
      * right; by right.
    + intros x Hx. pose proof (Hle (Z.min t u) ltac:(left)) as Hm.
      apply elem_of_cons in Hx as [->|Hx]; [lia|].
      apply elem_of_cons in Hx as [->|Hx]; [lia|].
      apply Hle. by right.
Qed.

Lemma foldl_max_spec (ts : list Z) (t : Z) : is_max (foldl Z.max t ts) (t :: ts).
Proof.
  revert t. induction ts as [|u ts IH]; intros t; simpl.
  - split; [left | intros x Hx; apply list_elem_of_singleton in Hx; lia].
  - destruct (IH (Z.max t u)) as [Hin Hle]. split.
    + apply elem_of_cons in Hin as [Heq|Hin].
      * rewrite Heq. destruct (Z.max_spec t u) as [[_ ->]|[_ ->]];
          [right; left | left].
      * right; by right.
    + intros x Hx. pose proof (Hle (Z.max t u) ltac:(left)) as Hm.
      apply elem_of_cons in Hx as [->|Hx]; [lia|].
      apply elem_of_cons in Hx as [->|Hx]; [lia|].
      apply Hle. by right.
Qed.

Lemma np_min_Ok (a : list Z) (m : Z) : np_min a = Ok m ↔ is_min m a.
Proof.
  destruct a as [|t ts]; simpl.
  - split; [done | intros [Hin _]; by apply elem_of_nil in Hin].
  - pose proof (foldl_min_spec ts t) as [Hin Hle]. split.
    + intros [= <-]. done.
    + intros [Hin' Hle']. f_equal. apply Hle in Hin'. apply Hle' in Hin. lia.
Qed.

Lemma np_max_Ok (a : list Z) (m : Z) : np_max a = Ok m ↔ is_max m a.
Proof.
  destruct a as [|t ts]; simpl.
  - split; [done | intros [Hin _]; by apply elem_of_nil in Hin].
  - pose proof (foldl_max_spec ts t) as [Hin Hle]. split.
    + intros [= <-]. done.
    + intros [Hin' Hle']. f_equal. apply Hle in Hin'. apply Hle' in Hin. lia.
Qed.

Lemma np_min_returns (a : list Z) : a ≠ [] → ∃ m, np_min a = Ok m.
Proof. destruct a; [done | eauto]. Qed.

Lemma np_max_returns (a : list Z) : a ≠ [] → ∃ m, np_max a = Ok m.
Proof. destruct a; [done | eauto]. Qed.

(** ** Prima-facie test *)

(** A case that contains both labels adds one to the counter exactly when
    the cause weakly precedes the effect in it; the loop body does not
    raise there. *)
Lemma c_before_e_step_spec (src : list row) (cause effect case : string) (n : nat) :
  occurs_in src cause case → occurs_in src effect case →
  ∃ b : bool,
    c_before_e_step (isin [cause; effect] src) cause effect n case
      = Ok (if b then S n else n)
    ∧ (b = true ↔ weakly_precedes src cause effect case).
Proof.
  intros Hc He. unfold c_before_e_step.
  assert (Hcl : cause ∈ [cause; effect]) by left.
  assert (Hel : effect ∈ [cause; effect]) by (right; left).
  rewrite decide_True by (by apply trace_obs).
  rewrite !trace_times by done.
  destruct (np_min_returns (times_of src cause case)) as [lo Hlo];
    [by apply times_of_nonempty|].
  destruct (np_max_returns (times_of src effect case)) as [hi Hhi];
    [by apply times_of_nonempty|].
  rewrite Hlo, Hhi. cbn. exists (bool_decide (lo ≤ hi)).
  apply np_min_Ok in Hlo. apply np_max_Ok in Hhi. split.
  - by rewrite bool_decide_decide; case_decide.
  - rewrite bool_decide_eq_true. split.
    + intros Hle. by exists lo, hi.
    + intros (lo' & hi' & Hlo' & Hhi' & Hle).
      apply np_min_Ok in Hlo, Hlo'. apply np_max_Ok in Hhi, Hhi'. congruence.
Qed.

(** The loop over the cases that contain both labels never raises, and
    counts, once each, the cases in which the cause weakly precedes the
    effect.  The count is therefore the same in whatever order the set of
    cases is walked. *)
Lemma for_each_c_before_e (src : list row) (cause effect : string)
    (cases : list string) (n : nat) :
  NoDup cases →
  (∀ case, case ∈ cases → occurs_in src cause case ∧ occurs_in src effect case) →
  ∃ counted : list string,
    for_each (c_before_e_step (isin [cause; effect] src) cause effect) n cases
      = Ok (n + length counted)%nat
    ∧ NoDup counted
    ∧ ∀ case, case ∈ counted ↔
        case ∈ cases ∧ weakly_precedes src cause effect case.
Proof.
  revert n. induction cases as [|c cs IH]; intros n Hnd Hocc.
  - exists []. cbn. split; [f_equal; lia|]. split; [constructor|].
    intros case. split; [by intros ?%elem_of_nil | by intros [?%elem_of_nil _]].
  - apply NoDup_cons in Hnd as [Hc Hnd].
    destruct (Hocc c) as [Hoc Hoe]; [left|].
    destruct (c_before_e_step_spec src cause effect c n Hoc Hoe) as (b & Hstep & Hb).
    destruct (IH (if b then S n else n) Hnd) as (counted & Hloop & Hnd' & Hin).
    { intros case Hcase. apply Hocc. by right. }
    cbn [for_each]. rewrite Hstep. cbn. rewrite Hloop.
    destruct b.
    + exists (c :: counted). split; [f_equal; simpl; lia|]. split.
      * apply NoDup_cons. split; [|done]. rewrite Hin. naive_solver.
      * intros case. rewrite !elem_of_cons, Hin.
        destruct Hb as [Hb _]. specialize (Hb eq_refl). naive_solver.
    + exists counted. split; [done|]. split; [done|].
      intros case. rewrite elem_of_cons, Hin. split; [naive_solver|].
      intros [[->|?] Hw]; [|done].
      destruct Hb as [_ Hb]. by specialize (Hb Hw).
Qed.

(** [test_cause_effect_pair] returns, and what its three counters are. *)
Lemma test_cause_effect_pair_counts (self : Inference) (cause effect : string) :
  ∃ c_and_e : nat,
    test_cause_effect_pair self cause effect
      = Ok (c_and_e, length (cases_of cause (source self)),
            length (cases_of effect (source self)))
    ∧ counts_cases c_and_e (λ case,
        occurs_in (source self) cause case ∧ occurs_in (source self) effect case
        ∧ weakly_precedes (source self) cause effect case).
Proof.
  unfold test_cause_effect_pair.
  assert (Hcl : cause ∈ [cause; effect]) by left.
  assert (Hel : effect ∈ [cause; effect]) by (right; left).
  rewrite !cases_of_isin by done.
  destruct (for_each_c_before_e (source self) cause effect
              (filter (λ case, case ∈ cases_of effect (source self))
                 (cases_of cause (source self))) 0)
    as (counted & Hloop & Hnd & Hin).
  { apply NoDup_filter, NoDup_unique. }
  { intros case [He Hc]%list_elem_of_filter. by rewrite <- !elem_of_cases_of. }
  rewrite Hloop. cbn. exists (length counted). split; [done|].
  exists counted. split; [done|]. split; [|done].
  intros case. rewrite Hin, list_elem_of_filter, !elem_of_cases_of. naive_solver.
Qed.

(** C2: the first counter returned by [test_cause_effect_pair] is the
    number of cases that contain both the cause and the effect and in
    which the earliest timestamp of the cause is at most the latest
    timestamp of the effect. *)
Theorem test_cause_effect_pair_c_and_e (self : Inference) (cause effect : string) :
  ∃ c_and_e c_trues e_trues : nat,
    test_cause_effect_pair self cause effect = Ok (c_and_e, c_trues, e_trues)
    ∧ counts_cases c_and_e (λ case,
        occurs_in (source self) cause case ∧ occurs_in (source self) effect case
        ∧ ∃ lo hi, is_min lo (times_of (source self) cause case)
            ∧ is_max hi (times_of (source self) effect case) ∧ lo ≤ hi).
Proof.
  destruct (test_cause_effect_pair_counts self cause effect) as (n & Hret & Hn).
  eauto.
Qed.

(** [populate_vars] leaves the data frame alone and records the number of
    distinct case identifiers. *)
Lemma foldl_populate_row_fields (rows : list row) (self : Inference) :
  source (foldl populate_row self rows) = source self
  ∧ traces (foldl populate_row self rows) = traces self
  ∧ events (foldl populate_row self rows) = events self
  ∧ prima_facie (foldl populate_row self rows) = prima_facie self
  ∧ hypotheses (foldl populate_row self rows) = hypotheses self.
Proof.
  revert self. induction rows as [|r rows IH]; intros self; [done|].
  cbn [foldl]. destruct (IH (populate_row self r)) as (-> & -> & -> & -> & ->).
  done.
Qed.

Lemma generate_iterator_id {A : Type} (self : Inference) (iter : list A) :
  generate_iterator self iter = iter.
Proof. unfold generate_iterator. by destruct (pb self). Qed.

Lemma populate_vars_fields (self : Inference) :
  source (populate_vars self) = source self
  ∧ traces (populate_vars self) = length (unique (row_case <$> source self))
  ∧ events (populate_vars self) = length (source self)
  ∧ prima_facie (populate_vars self) = prima_facie self
  ∧ hypotheses (populate_vars self) = hypotheses self.
Proof.
  unfold populate_vars.
  match goal with |- context [foldl populate_row ?s ?l] =>
    destruct (foldl_populate_row_fields l s) as (-> & -> & -> & -> & ->) end.
  done.
Qed.

Lemma init_built_from_log (src : list row) (pb : bool) :
  built_from_log (init src pb) ∧ source (init src pb) = src
  ∧ prima_facie (init src pb) = ∅.
Proof.
  unfold built_from_log, init.
  match goal with |- context [populate_vars ?s] =>
    destruct (populate_vars_fields s) as (-> & -> & _ & -> & _) end.
  done.
Qed.

Lemma generate_hypotheses_built_from_log (self : Inference)
    (causes effects : list string) :
  built_from_log self →
  built_from_log (generate_hypotheses_for_effects self causes effects).
Proof. done. Qed.

Lemma built_from_log_counts (self : Inference) :
  built_from_log self → counts_cases (traces self) (case_of_log (source self)).
Proof.
  intros ->. eapply counts_cases_ext; [|apply counts_cases_unique_list].
  intros case. unfold case_of_log. rewrite list_elem_of_fmap. naive_solver.
Qed.

(** A label that occurs in some case makes the log, and so the set of its
    case identifiers, non-empty. *)
Lemma cases_of_pos_traces_pos (self : Inference) (label : string) :
  built_from_log self →
  (0 < length (cases_of label (source self)))%nat →
  source self ≠ [] ∧ (1 ≤ traces self)%nat.
Proof.
  intros Hb Hpos. destruct (cases_of label (source self)) as [|case l] eqn:Hc;
    [simpl in Hpos; lia|].
  assert (Hin : case ∈ cases_of label (source self)) by (rewrite Hc; left).
  apply elem_of_cases_of in Hin as (r & Hr & Hrc & _).
  split; [intros Hnil; rewrite Hnil in Hr; by apply elem_of_nil in Hr|].
  rewrite Hb.
  assert (Hu : row_case r ∈ unique (row_case <$> source self))
    by (apply elem_of_unique, list_elem_of_fmap; eauto).
  destruct (unique _); [by apply elem_of_nil in Hu | simpl; lia].
Qed.

Lemma Qgtb_true (x y : Q) : Qgtb x y = true ↔ (y < x)%Q.
Proof.
  unfold Qgtb. rewrite (Qgt_alt x y).
  destruct (x ?= y)%Q; split; intros; done.
Qed.

(** The three ways [is_prima_facie] can end. *)
Lemma is_prima_facie_zero (self : Inference) (c_and_e e_trues : nat) :
  is_prima_facie self c_and_e 0 e_trues = Ok false.
Proof. done. Qed.

Lemma is_prima_facie_divides (self : Inference) (c_and_e c_trues e_trues : nat) :
  c_trues ≠ 0%nat → traces self ≠ 0%nat →
  is_prima_facie self c_and_e c_trues e_trues
  = Ok (Qgtb (Qnat c_and_e / Qnat c_trues) (Qnat e_trues / Qnat (traces self))).
Proof.
  intros Hc Ht. unfold is_prima_facie, truediv. by rewrite !decide_False.
Qed.

Lemma is_prima_facie_raises (self : Inference) (c_and_e c_trues e_trues : nat) :
  is_prima_facie self c_and_e c_trues e_trues = Raise ZeroDivisionError
  ↔ c_trues ≠ 0%nat ∧ traces self = 0%nat.
Proof.
  unfold is_prima_facie, truediv.
  destruct (decide (c_trues = 0%nat)); [naive_solver|].
  destruct (decide (traces self = 0%nat)); naive_solver.
Qed.

(** On an object built from a log, the decision on a hypothesis returns:
    the pair test returns its counters and [is_prima_facie] returns a
    Boolean. *)
Lemma prima_facie_decision (self : Inference) (cause effect : string) :
  built_from_log self →
  ∃ (c_and_e : nat) (accepted : bool),
    test_cause_effect_pair self cause effect
      = Ok (c_and_e, length (cases_of cause (source self)),
            length (cases_of effect (source self)))
    ∧ is_prima_facie self c_and_e (length (cases_of cause (source self)))
        (length (cases_of effect (source self))) = Ok accepted
    ∧ (accepted = true ↔
         (0 < length (cases_of cause (source self)))%nat
         ∧ (Qnat (length (cases_of effect (source self))) / Qnat (traces self)
            < Qnat c_and_e / Qnat (length (cases_of cause (source self))))%Q).
Proof.
  intros Hb.
  destruct (test_cause_effect_pair_counts self cause effect) as (n & Hret & _).
  exists n. destruct (decide (length (cases_of cause (source self)) = 0%nat))
    as [Hz|Hnz].
  - exists false. rewrite Hz. split; [by rewrite <- Hz|]. split; [done|].
    split; [done | lia].
  - destruct (cases_of_pos_traces_pos self cause Hb) as [_ Ht]; [lia|].
    eexists. split; [done|]. split; [apply is_prima_facie_divides; lia|].
    rewrite Qgtb_true. split; [intros ?; split; [lia|done] | by intros [_ ?]].
Qed.

Lemma prima_facie_step_decision (self : Inference) (cause effect : string)
    (c_and_e c_trues e_trues : nat) (accepted : bool)
    (pf : gmap string (list string)) :
  test_cause_effect_pair self cause effect = Ok (c_and_e, c_trues, e_trues) →
  is_prima_facie self c_and_e c_trues e_trues = Ok accepted →
  prima_facie_step self pf (cause, effect)
  = Ok (if accepted then record_cause pf effect cause else pf).
Proof.
  intros Ht Hp. unfold prima_facie_step. rewrite Ht. cbn. rewrite Hp. cbn.
  by destruct accepted.
Qed.

(** C1: on an object built from a log, the hypothesis (cause, effect) is
    accepted if and only if [c_trues > 0] and
    [c_and_e / c_trues > e_trues / total_traces], where [total_traces] is
    the number of distinct case identifiers of the whole log; an accepted
    hypothesis, and no other, is recorded in the prima-facie map; with
    [c_trues = 0] the answer is [False] whatever the other counters. *)
Theorem prima_facie_accepted_iff (self : Inference) (cause effect : string) :
  built_from_log self →
  ∃ (c_and_e c_trues e_trues : nat) (accepted : bool),
    test_cause_effect_pair self cause effect = Ok (c_and_e, c_trues, e_trues)
    ∧ is_prima_facie self c_and_e c_trues e_trues = Ok accepted
    ∧ counts_cases (traces self) (case_of_log (source self))
    ∧ (accepted = true ↔
         (0 < c_trues)%nat
         ∧ (Qnat c_and_e / Qnat c_trues > Qnat e_trues / Qnat (traces self))%Q)
    ∧ (∀ pf, prima_facie_step self pf (cause, effect)
             = Ok (if accepted then record_cause pf effect cause else pf))
    ∧ (∀ c_and_e' e_trues',
         is_prima_facie self c_and_e' 0 e_trues' = Ok false).
Proof.
  intros Hb.
  destruct (prima_facie_decision self cause effect Hb) as (n & acc & Ht & Hp & Hiff).
  eexists n, _, _, acc. split; [done|]. split; [done|].
  split; [by apply built_from_log_counts|]. split; [done|].
  split; [|intros; apply is_prima_facie_zero].
  intros pf. by eapply prima_facie_step_decision.
Qed.

(** C10: on an object built from a log, the prima-facie decision on any
    hypothesis returns a Boolean and never divides by zero.  With
    [c_trues = 0] it answers [False] before dividing; with [c_trues > 0]
    the log has an event, so at least one case.  A division by zero would
    need [c_trues ≠ 0] with no case at all. *)
Theorem is_prima_facie_never_divides_by_zero (self : Inference)
    (cause effect : string) :
  built_from_log self →
  ∃ (c_and_e c_trues e_trues : nat) (accepted : bool),
    test_cause_effect_pair self cause effect = Ok (c_and_e, c_trues, e_trues)
    ∧ is_prima_facie self c_and_e c_trues e_trues = Ok accepted
    ∧ (c_trues = 0%nat → accepted = false)
    ∧ ((0 < c_trues)%nat → source self ≠ [] ∧ (1 ≤ traces self)%nat)
    ∧ (∀ a c e, is_prima_facie self a c e = Raise ZeroDivisionError
                ↔ c ≠ 0%nat ∧ traces self = 0%nat)
    ∧ (∀ a e, is_prima_facie self a 0 e = Ok false).
Proof.
  intros Hb.
  destruct (prima_facie_decision self cause effect Hb) as (n & acc & Ht & Hp & Hiff).
  eexists n, _, _, acc. split; [done|]. split; [done|]. split; [|split; [|split]].
  - intros Hz. destruct acc; [|done]. destruct Hiff as [Hiff _].
    specialize (Hiff eq_refl). lia.
  - by apply cases_of_pos_traces_pos.
  - intros a c e. apply is_prima_facie_raises.
  - intros a e. apply is_prima_facie_zero.
Qed.

(** ** Epsilon averaging *)

Lemma tally_nil (P : string → Prop) : tally P [] 0.
Proof.
  exists []. split; [constructor|]. split; [|done].
  intros case. split; [by intros ?%elem_of_nil | by intros [?%elem_of_nil _]].
Qed.

Lemma tally_cons (P : string → Prop) (c : string) (cs : list string)
    (n : nat) (b : bool) :
  c ∉ cs → (b = true ↔ P c) → tally P cs n →
  tally P (c :: cs) (n + Nat.b2n b).
Proof.
  intros Hc Hb (counted & Hnd & Hin & ->). destruct b; simpl.
  - exists (c :: counted). split; [|split; [|simpl; lia]].
    + apply NoDup_cons. split; [|done]. rewrite Hin. naive_solver.
    + intros case. rewrite !elem_of_cons, Hin.
      destruct Hb as [Hb _]. specialize (Hb eq_refl). naive_solver.
  - exists counted. split; [done|]. split; [|lia].
    intros case. rewrite elem_of_cons, Hin. split; [naive_solver|].
    intros [[->|?] HP]; [|done]. destruct Hb as [_ Hb]. by specialize (Hb HP).
Qed.

Lemma tally_counts_cases (P Q : string → Prop) (cases : list string) (n : nat) :
  (∀ case, case ∈ cases ∧ P case ↔ Q case) → tally P cases n → counts_cases n Q.
Proof.
  intros HPQ (counted & Hnd & Hin & ->). exists counted.
  split; [done|]. split; [|done]. intros case. by rewrite Hin.
Qed.

Lemma np_any_eq_trace (labels : list string) (src : list row) (label case : string) :
  label ∈ labels →
  np_any_eq (row_obs <$> trace_of case (isin labels src)) label
  = bool_decide (occurs_in src label case).
Proof.
  intros Hl. unfold np_any_eq. apply bool_decide_ext.
  rewrite <- (trace_obs labels) by done. rewrite Exists_exists. naive_solver.
Qed.

Lemma np_all_ne_trace (labels : list string) (src : list row) (label case : string) :
  label ∈ labels →
  np_all_ne (row_obs <$> trace_of case (isin labels src)) label
  = bool_decide (¬ occurs_in src label case).
Proof.
  intros Hl. unfold np_all_ne. apply bool_decide_ext.
  rewrite <- (trace_obs labels) by done. rewrite Forall_forall. naive_solver.
Qed.

Lemma weakly_precedes_iff (src : list row) (a b case : string) (lo hi : Z) :
  np_min (times_of src a case) = Ok lo →
  np_max (times_of src b case) = Ok hi →
  weakly_precedes src a b case ↔ lo ≤ hi.
Proof.
  intros Hlo Hhi. split.
  - intros (lo' & hi' & Hlo' & Hhi' & Hle).
    apply np_min_Ok in Hlo'. apply np_max_Ok in Hhi'. congruence.
  - intros Hle. exists lo, hi. by rewrite <- np_min_Ok, <- np_max_Ok.
Qed.

Lemma weakly_precedes_occurs (src : list row) (a b case : string) :
  weakly_precedes src a b case → occurs_in src a case ∧ occurs_in src b case.
Proof.
  intros (lo & hi & [Hlo _] & [Hhi _] & _). rewrite <- !times_of_nonempty.
  split; intros Hnil; rewrite Hnil in *; by eapply elem_of_nil.
Qed.

(** One case of the loop of [calculate_probability_differences]: the body
    never raises, and each counter grows by one exactly under its
    condition. *)
Lemma probability_step_spec (src : list row) (effect cause x case : string)
    (k : counters) :
  ∃ b1 b2 b3 b4 : bool,
    probability_step (isin [cause; effect; x] src) effect cause x k case
      = Ok (Counters (c_and_x k + Nat.b2n b1) (c_and_x_and_e k + Nat.b2n b2)
              (not_c_and_x k + Nat.b2n b3) (not_c_and_x_and_e k + Nat.b2n b4))
    ∧ (b1 = true ↔ occurs_in src cause case ∧ occurs_in src x case)
    ∧ (b2 = true ↔ occurs_in src cause case ∧ occurs_in src x case
         ∧ weakly_precedes src cause effect case
         ∧ weakly_precedes src x effect case)
    ∧ (b3 = true ↔ ¬ occurs_in src cause case ∧ occurs_in src x case)
    ∧ (b4 = true ↔ ¬ occurs_in src cause case ∧ occurs_in src x case
         ∧ weakly_precedes src x effect case).
Proof.
  assert (Hcl : cause ∈ [cause; effect; x]) by left.
  assert (Hel : effect ∈ [cause; effect; x]) by (right; left).
  assert (Hxl : x ∈ [cause; effect; x]) by (right; right; left).
  unfold probability_step.
  rewrite !np_any_eq_trace, !np_all_ne_trace, !trace_times by done.
  pose proof (weakly_precedes_occurs src cause effect case) as Hwc.
  pose proof (weakly_precedes_occurs src x effect case) as Hwx.
  destruct (decide (occurs_in src x case)) as [Hx|Hx]; cycle 1.
  { exists false, false, false, false.
    rewrite (bool_decide_eq_false_2 (occurs_in src x case)) by done.
    rewrite !andb_false_r. cbn. split; [|naive_solver].
    destruct k; cbn. do 2 f_equal; lia. }
  rewrite (bool_decide_eq_true_2 (occurs_in src x case)) by done.
  rewrite !andb_true_r.
  destruct (np_min_returns (times_of src x case)) as [x_lo Hxlo];
    [by apply times_of_nonempty|].
  pose proof (weakly_precedes_iff src x effect case x_lo) as Hwpx.
  destruct (decide (occurs_in src cause case)) as [Hc|Hc];
    [rewrite (bool_decide_eq_true_2 (occurs_in src cause case)) by done;
     rewrite (bool_decide_eq_false_2 (¬ occurs_in src cause case)) by tauto
    |rewrite (bool_decide_eq_false_2 (occurs_in src cause case)) by done;
     rewrite (bool_decide_eq_true_2 (¬ occurs_in src cause case)) by done];
    (destruct (decide (occurs_in src effect case)) as [He|He];
     [rewrite (bool_decide_eq_true_2 (occurs_in src effect case)) by done
     |rewrite (bool_decide_eq_false_2 (occurs_in src effect case)) by done]).
  - destruct (np_min_returns (times_of src cause case)) as [c_lo Hclo];
      [by apply times_of_nonempty|].
    destruct (np_max_returns (times_of src effect case)) as [e_hi Hehi];
      [by apply times_of_nonempty|].
    pose proof (weakly_precedes_iff src cause effect case c_lo e_hi Hclo Hehi) as Hwpc.
    specialize (Hwpx e_hi Hxlo Hehi).
    rewrite Hclo, Hxlo, Hehi. cbn.
    exists true, (bool_decide (c_lo ≤ e_hi ∧ x_lo ≤ e_hi)), false, false.
    split; [|rewrite bool_decide_eq_true; naive_solver].
    destruct k; repeat (case_decide; cbn);
      rewrite ?Hxlo, ?Hehi; cbn; repeat (case_decide; cbn);
      solve [exfalso; lia | unfold mret, result_ret; do 2 f_equal; lia].
  - exists true, false, false, false. cbn. split; [|naive_solver].
    destruct k; cbn. do 2 f_equal; lia.
  - destruct (np_max_returns (times_of src effect case)) as [e_hi Hehi];
      [by apply times_of_nonempty|].
    specialize (Hwpx e_hi Hxlo Hehi).
    rewrite Hxlo, Hehi. cbn.
    exists false, false, true, (bool_decide (x_lo ≤ e_hi)).
    split; [|rewrite bool_decide_eq_true; naive_solver].
    destruct k; cbn; repeat (case_decide; cbn);
      solve [exfalso; lia | unfold mret, result_ret; do 2 f_equal; lia].
  - exists false, false, true, false. cbn. split; [|naive_solver].
    destruct k; cbn. do 2 f_equal; lia.
Qed.

Lemma for_each_probability_step (src : list row) (effect cause x : string)
    (cases : list string) (k : counters) :
  NoDup cases →
  ∃ n1 n2 n3 n4 : nat,
    for_each (probability_step (isin [cause; effect; x] src) effect cause x)
      k cases
    = Ok (Counters (c_and_x k + n1) (c_and_x_and_e k + n2)
            (not_c_and_x k + n3) (not_c_and_x_and_e k + n4))
    ∧ tally (λ case, occurs_in src cause case ∧ occurs_in src x case) cases n1
    ∧ tally (λ case, occurs_in src cause case ∧ occurs_in src x case
               ∧ weakly_precedes src cause effect case
               ∧ weakly_precedes src x effect case) cases n2
    ∧ tally (λ case, ¬ occurs_in src cause case ∧ occurs_in src x case) cases n3
    ∧ tally (λ case, ¬ occurs_in src cause case ∧ occurs_in src x case
               ∧ weakly_precedes src x effect case) cases n4.
Proof.
  revert k. induction cases as [|c cs IH]; intros k Hnd.
  - exists 0%nat, 0%nat, 0%nat, 0%nat. cbn.
    split; [destruct k; cbn; do 2 f_equal; lia|].
    repeat split; apply tally_nil.
  - apply NoDup_cons in Hnd as [Hc Hnd].
    destruct (probability_step_spec src effect cause x c k)
      as (b1 & b2 & b3 & b4 & Hstep & H1 & H2 & H3 & H4).
    cbn [for_each]. rewrite Hstep. cbn.
    match goal with |- context [for_each _ ?k' cs] =>
      destruct (IH k' Hnd) as (n1 & n2 & n3 & n4 & -> & T1 & T2 & T3 & T4) end.
    exists (n1 + Nat.b2n b1)%nat, (n2 + Nat.b2n b2)%nat,
      (n3 + Nat.b2n b3)%nat, (n4 + Nat.b2n b4)%nat.
    split; [cbn; do 2 f_equal; lia|].
    repeat split; by apply tally_cons.
Qed.

(** The loop of [calculate_probability_differences] returns, and what its
    four counters count. *)
Lemma probability_counters_spec (self : Inference) (effect cause x : string) :
  ∃ k : counters,
    probability_counters self effect cause x = Ok k
    ∧ counts_cases (c_and_x k) (λ case,
        occurs_in (source self) x case ∧ occurs_in (source self) cause case)
    ∧ counts_cases (c_and_x_and_e k) (λ case,
        occurs_in (source self) x case ∧ occurs_in (source self) cause case
        ∧ weakly_precedes (source self) cause effect case
        ∧ weakly_precedes (source self) x effect case)
    ∧ counts_cases (not_c_and_x k) (λ case,
        occurs_in (source self) x case ∧ ¬ occurs_in (source self) cause case)
    ∧ counts_cases (not_c_and_x_and_e k) (λ case,
        occurs_in (source self) x case ∧ ¬ occurs_in (source self) cause case
        ∧ weakly_precedes (source self) x effect case).
Proof.
  unfold probability_counters.
  rewrite cases_of_isin by (right; right; left).
  destruct (for_each_probability_step (source self) effect cause x
              (cases_of x (source self)) (Counters 0 0 0 0))
    as (n1 & n2 & n3 & n4 & -> & T1 & T2 & T3 & T4); [apply NoDup_unique|].
  eexists. split; [done|]. cbn.
  repeat split; (eapply tally_counts_cases; [|eassumption]);
    intros case; rewrite elem_of_cases_of; naive_solver.
Qed.


(** [calculate_probability_differences] is total: the term it returns. *)
Lemma calculate_probability_differences_returns (self : Inference)
    (effect cause x : string) :
  ∃ d : Q, calculate_probability_differences self effect cause x = Ok d.
Proof.
  destruct (probability_counters_spec self effect cause x) as (k & Hk & _).
  unfold calculate_probability_differences. rewrite Hk. cbn. unfold truediv.
  destruct (decide (c_and_x k = 0%nat ∨ not_c_and_x k = 0%nat)); [by eexists|].
  rewrite !decide_False by tauto. by eexists.
Qed.

Lemma calculate_probability_differences_delta (self : Inference)
    (effect cause x : string) :
  calculate_probability_differences self effect cause x
  = Ok (delta self effect cause x).
Proof.
  unfold delta.
  by destruct (calculate_probability_differences_returns self effect cause x)
    as [d ->].
Qed.

(** The summing loop of [get_epsilon_average] *)
Lemma for_each_sum (self : Inference) (effect cause : string)
    (others : list string) (eps_x : Q) :
  ∃ total : Q,
    for_each (λ eps_x x,
                d ← calculate_probability_differences self effect cause x;
                mret (eps_x + d)%Q) eps_x others = Ok total
    ∧ (total == eps_x + Qsum (delta self effect cause <$> others))%Q.
Proof.
  revert eps_x. induction others as [|x others IH]; intros eps_x; cbn [for_each].
  - exists eps_x. split; [done|]. unfold Qsum. cbn [fmap list_fmap foldr]. ring.
  - rewrite calculate_probability_differences_delta. cbn.
    destruct (IH (eps_x + delta self effect cause x)%Q) as (total & -> & Heq).
    exists total. split; [done|]. rewrite Heq. unfold Qsum.
    cbn [fmap list_fmap foldr]. ring.
Qed.

(** What [get_epsilon_average] does, case by case. *)
Lemma get_epsilon_average_no_entry (self : Inference) (effect cause : string) :
  prima_facie self !! effect = None →
  get_epsilon_average self effect cause = Raise KeyError.
Proof. intros H. unfold get_epsilon_average. by rewrite H. Qed.

Lemma get_epsilon_average_alone (self : Inference) (effect cause : string)
    (causes : list string) :
  prima_facie self !! effect = Some causes →
  filter (λ x, x ≠ cause) causes = [] →
  get_epsilon_average self effect cause = Ok None.
Proof. intros H Hf. unfold get_epsilon_average. rewrite H. cbn. by rewrite Hf. Qed.

Lemma get_epsilon_average_mean (self : Inference) (effect cause : string)
    (causes : list string) :
  prima_facie self !! effect = Some causes →
  filter (λ x, x ≠ cause) causes ≠ [] →
  ∃ q : Q,
    get_epsilon_average self effect cause = Ok (Some q)
    ∧ (q == mean (delta self effect cause <$> filter (λ x, x ≠ cause) causes))%Q.
Proof.
  intros H Hf. unfold get_epsilon_average. rewrite H. cbn.
  set (others := filter (λ x, x ≠ cause) causes) in *.
  assert (Hlen : length others ≠ 0%nat) by (by destruct others).
  rewrite decide_True by done.
  destruct (for_each_sum self effect cause others 0%Q) as (total & -> & Heq).
  cbn. unfold truediv. rewrite decide_False by done. cbn.
  eexists. split; [done|]. unfold mean. rewrite Heq, length_fmap.
  by rewrite Qplus_0_l.
Qed.

Lemma filter_ne_nil_iff (cause : string) (causes : list string) :
  filter (λ x, x ≠ cause) causes = [] ↔ ∀ x, x ∈ causes → x = cause.
Proof.
  split.
  - intros Hf x Hx. destruct (decide (x = cause)) as [|Hne]; [done|].
    by pose proof (filter_nil_not_elem_of _ _ x Hf Hne).
  - intros Hall. destruct (filter _ causes) as [|y l] eqn:Hf; [done|].
    assert (Hy : y ∈ filter (λ x, x ≠ cause) causes) by (rewrite Hf; left).
    apply list_elem_of_filter in Hy as [Hne Hy]. by apply Hall in Hy.
Qed.

(** C3, amended: for a cause listed in the prima-facie entry of the
    effect, the score is [None] (not a number, in particular not 0)
    exactly when the entry lists no other cause; otherwise it is the
    arithmetic mean of Δ(effect, cause, x) over the entries [x] of the
    list other than [cause], each counted as often as the list repeats
    it.  When the entry lists each cause once, these are the members of
    the set minus [cause], once each, and the score is the mean over that
    set. *)
Theorem get_epsilon_average_spec (self : Inference) (effect cause : string)
    (causes : list string) :
  prima_facie self !! effect = Some causes → cause ∈ causes →
  let others := filter (λ x, x ≠ cause) causes in
  (∀ x, x ∈ others ↔ x ∈ causes ∧ x ≠ cause)
  ∧ (NoDup causes → NoDup others)
  ∧ (get_epsilon_average self effect cause = Ok None
     ↔ ∀ x, x ∈ causes → x = cause)
  ∧ ((∃ x, x ∈ causes ∧ x ≠ cause) →
     ∃ q : Q,
       get_epsilon_average self effect cause = Ok (Some q)
       ∧ (q == mean (delta self effect cause <$> others))%Q
       ∧ (∀ x, calculate_probability_differences self effect cause x
               = Ok (delta self effect cause x))
       ∧ (NoDup causes →
          (q == mean (delta self effect cause <$> unique others))%Q))
  ∧ (Ok None : result (option Q)) ≠ Ok (Some 0%Q).
Proof.
  intros Hpf Hin others. subst others.
  split; [intros x; rewrite list_elem_of_filter; naive_solver|].
  split; [apply NoDup_filter|].
  destruct (decide (filter (λ x, x ≠ cause) causes = [])) as [Hnil|Hne].
  - split; [|split; [|done]].
    + rewrite <- filter_ne_nil_iff.
      by rewrite (get_epsilon_average_alone self effect cause causes).
    + intros (x & Hx & Hxc).
      pose proof (proj1 (filter_ne_nil_iff cause causes) Hnil). naive_solver.
  - destruct (get_epsilon_average_mean self effect cause causes Hpf Hne)
      as (q & Hq & Hmean).
    split; [|split; [|done]].
    + rewrite Hq, <- filter_ne_nil_iff. split; [done|]. by intros ?.
    + intros _. exists q. split; [done|]. split; [done|]. split.
      * intros x. apply calculate_probability_differences_delta.
      * intros Hnd. by rewrite unique_NoDup_id by (by apply NoDup_filter).
Qed.

(** C7, amended: [get_epsilon_average] raises, with a [KeyError], exactly
    when the effect has no entry in the prima-facie map; whenever the
    effect has an entry, and so for every cause that is a member of it,
    it returns a value, a number or [None]. *)
Theorem get_epsilon_average_raises_iff (self : Inference) (effect cause : string) :
  (raises (get_epsilon_average self effect cause)
   ↔ prima_facie self !! effect = None)
  ∧ (prima_facie self !! effect = None
     ↔ get_epsilon_average self effect cause = Raise KeyError)
  ∧ (is_Some (prima_facie self !! effect)
     ↔ returns (get_epsilon_average self effect cause))
  ∧ (∀ causes, prima_facie self !! effect = Some causes → cause ∈ causes →
       returns (get_epsilon_average self effect cause)).
Proof.
  unfold raises, returns.
  destruct (prima_facie self !! effect) as [causes|] eqn:Hpf.
  - assert (Hret : ∃ a, get_epsilon_average self effect cause = Ok a).
    { destruct (decide (filter (λ x, x ≠ cause) causes = [])) as [Hnil|Hne].
      - exists None. by eapply get_epsilon_average_alone.
      - destruct (get_epsilon_average_mean self effect cause causes Hpf Hne)
          as (q & Hq & _). by exists (Some q). }
    destruct Hret as [a Ha]. rewrite Ha.
    split; [split; [by intros [e ?] | done]|].
    split; [done|]. split; [split; [by eexists | by eexists]|]. by eexists.
  - rewrite (get_epsilon_average_no_entry self effect cause Hpf).
    split; [split; [done | by eexists]|]. split; [done|].
    split; [split; [by intros [? ?] | by intros [? ?]]|]. done.
Qed.

(** ** Running the prima-facie test *)

Lemma prima_facie_step_accepts (self : Inference) (cause effect : string)
    (pf : gmap string (list string)) :
  built_from_log self →
  prima_facie_step self pf (cause, effect)
  = Ok (if accepts self cause effect then record_cause pf effect cause else pf).
Proof.
  intros Hb.
  destruct (prima_facie_decision self cause effect Hb) as (n & acc & Ht & Hp & _).
  rewrite (prima_facie_step_decision _ _ _ _ _ _ _ pf Ht Hp).
  unfold accepts. by rewrite Ht, Hp.
Qed.

Lemma lookup_record_cause (pf : gmap string (list string))
    (effect cause effect' : string) :
  record_cause pf effect cause !! effect'
  = if decide (effect = effect') then Some (entry pf effect ++ [cause])
    else pf !! effect'.
Proof.
  unfold record_cause, entry.
  destruct (pf !! effect) eqn:Hpf; rewrite lookup_insert; by case_decide.
Qed.

Lemma accepted_causes_cons (self : Inference) (effect c e : string)
    (hyps : list (string * string)) :
  accepted_causes self effect ((c, e) :: hyps)
  = (if decide (e = effect ∧ accepts self c e = true) then [c] else [])
    ++ accepted_causes self effect hyps.
Proof. unfold accepted_causes. rewrite filter_cons. simpl. by case_decide. Qed.

(** The loop of [test_for_prima_facie] never raises on an object built
    from a log; it appends to each entry, in order, the causes of the
    accepted hypotheses on that effect, and creates the entries it needs. *)
Lemma for_each_prima_facie_step (self : Inference)
    (hyps : list (string * string)) (pf : gmap string (list string)) :
  built_from_log self →
  ∃ pf' : gmap string (list string),
    for_each (prima_facie_step self) pf hyps = Ok pf'
    ∧ (∀ effect, entry pf' effect
                 = entry pf effect ++ accepted_causes self effect hyps)
    ∧ (∀ effect, pf' !! effect = None
                 ↔ pf !! effect = None ∧ accepted_causes self effect hyps = []).
Proof.
  intros Hb. revert pf. induction hyps as [|[c e] hyps IH]; intros pf.
  - exists pf. split; [done|]. split; intros effect.
    + unfold accepted_causes. cbn. by rewrite app_nil_r.
    + naive_solver.
  - cbn [for_each]. rewrite prima_facie_step_accepts by done.
    cbn [mbind result_bind].
    match goal with |- context [for_each _ ?pf1 hyps] =>
      destruct (IH pf1) as (pf' & -> & Hentry & Hnone) end.
    exists pf'. split; [done|]. split; intros effect.
    + rewrite Hentry, accepted_causes_cons, app_assoc. f_equal.
      clear IH Hentry Hnone. destruct (accepts self c e).
      * unfold entry at 1. rewrite lookup_record_cause.
        destruct (decide (e = effect)) as [->|Hne].
        -- by rewrite decide_True by done.
        -- rewrite decide_False by tauto. by rewrite app_nil_r.
      * rewrite decide_False by (by intros [_ ?]). by rewrite app_nil_r.
    + rewrite Hnone, accepted_causes_cons.
      clear IH Hentry Hnone. destruct (accepts self c e).
      * rewrite lookup_record_cause. destruct (decide (e = effect)) as [->|Hne].
        -- rewrite decide_True by done. split; [by intros [? _] | by intros [_ ?]].
        -- by rewrite decide_False by tauto.
      * by rewrite decide_False by (by intros [_ ?]).
Qed.

Lemma accepts_set_prima_facie (self : Inference)
    (pf : gmap string (list string)) (cause effect : string) :
  accepts (set_prima_facie pf self) cause effect = accepts self cause effect.
Proof. done. Qed.

(** [test_for_prima_facie] on an object built from a log. *)
Lemma test_for_prima_facie_returns (self : Inference) :
  built_from_log self →
  ∃ pf' : gmap string (list string),
    test_for_prima_facie self = Ok (set_prima_facie pf' self)
    ∧ (∀ effect, entry pf' effect
         = entry (prima_facie self) effect
           ++ accepted_causes self effect (hypotheses self))
    ∧ (∀ effect, pf' !! effect = None
         ↔ prima_facie self !! effect = None
           ∧ accepted_causes self effect (hypotheses self) = []).
Proof.
  intros Hb. unfold test_for_prima_facie. rewrite generate_iterator_id.
  destruct (for_each_prima_facie_step self (hypotheses self) (prima_facie self) Hb)
    as (pf' & -> & Hentry & Hnone).
  by exists pf'.
Qed.

(** C6, counterexample: on the small log, the first call records
    [A] and [X] for [B]; a second call on the same object records them
    again, so the dictionary is no longer the one of the first call. *)
Lemma test_for_prima_facie_twice_counterexample :
  ∃ self1 self2 : Inference,
    test_for_prima_facie example_self = Ok self1
    ∧ test_for_prima_facie self1 = Ok self2
    ∧ prima_facie self1 !! "B" = Some ["A"; "X"]
    ∧ prima_facie self2 !! "B" = Some ["A"; "X"; "A"; "X"]
    ∧ prima_facie self2 ≠ prima_facie self1.
Proof.
  exists example_scored,
    (set_prima_facie {["B" := ["A"; "X"; "A"; "X"]]} example_self).
  split; [by vm_compute|]. split; [by vm_compute|].
  split; [by vm_compute|]. split; [by vm_compute|].
  intros Heq. apply (f_equal (λ pf, pf !! "B")) in Heq.
  vm_compute in Heq. discriminate Heq.
Qed.

(** C6, amended: on an object built from a log, a second call of
    [test_for_prima_facie] returns, and leaves the set of effects and, for
    each effect, the set of causes listed for it as the first call left
    them; the lists themselves receive every accepted cause once more (so
    each list is doubled when the first call started from the empty
    dictionary). *)
Theorem test_for_prima_facie_twice (self : Inference) :
  built_from_log self →
  ∃ self1 self2 : Inference,
    test_for_prima_facie self = Ok self1
    ∧ test_for_prima_facie self1 = Ok self2
    ∧ dom (prima_facie self2) = dom (prima_facie self1)
    ∧ (∀ effect cause,
         cause ∈ entry (prima_facie self2) effect
         ↔ cause ∈ entry (prima_facie self1) effect)
    ∧ (∀ effect,
         entry (prima_facie self2) effect
         = entry (prima_facie self1) effect
           ++ accepted_causes self effect (hypotheses self))
    ∧ (prima_facie self = ∅ →
       ∀ effect,
         entry (prima_facie self2) effect
         = entry (prima_facie self1) effect ++ entry (prima_facie self1) effect).
Proof.
  intros Hb.
  destruct (test_for_prima_facie_returns self Hb) as (pf1 & H1 & E1 & N1).
  destruct (test_for_prima_facie_returns (set_prima_facie pf1 self) Hb)
    as (pf2 & H2 & E2 & N2).
  exists (set_prima_facie pf1 self), (set_prima_facie pf2 self).
  split; [done|]. split; [done|]. cbn in *.
  split; [|split; [|split]].
  - apply set_eq. intros effect. rewrite !elem_of_dom, <- !not_eq_None_Some.
    rewrite N2, N1. tauto.
  - intros effect cause. rewrite E2, E1, !elem_of_app. tauto.
  - intros effect. apply E2.
  - intros Hempty effect.
    assert (Hnil : entry (prima_facie self) effect = [])
      by (unfold entry; by rewrite Hempty, lookup_empty).
    by rewrite E2, E1, Hnil.
Qed.

(** Hypotheses generated from a set of causes and a set of effects are
    pairwise distinct, never pair a label with itself, and run over the
    effects first and the causes second. *)
Lemma generate_hypotheses_spec (self : Inference) (causes effects : list string) :
  (∀ cause effect,
     (cause, effect) ∈ hypotheses (generate_hypotheses_for_effects self causes effects)
     ↔ cause ∈ causes ∧ effect ∈ effects ∧ cause ≠ effect)
  ∧ (NoDup causes → NoDup effects →
     NoDup (hypotheses (generate_hypotheses_for_effects self causes effects))).
Proof.
  cbn. split.
  - intros cause effect. rewrite list_elem_of_bind. split.
    + intros (e & Hin & He). apply list_elem_of_bind in Hin as (c & Hin & Hc).
      apply list_elem_of_filter in Hc as [Hne Hc].
      apply list_elem_of_singleton in Hin as [= -> ->]. done.
    + intros (Hc & He & Hne). exists effect. split; [|done].
      apply list_elem_of_bind. exists cause. split; [by left|].
      by apply list_elem_of_filter.
  - intros Hc He. apply NoDup_bind; [| |done].
    + intros e1 e2 [c e] _ _ H1 H2.
      apply list_elem_of_bind in H1 as (c1 & H1 & _).
      apply list_elem_of_bind in H2 as (c2 & H2 & _).
      apply list_elem_of_singleton in H1, H2. congruence.
    + intros e _. apply NoDup_bind; [| |by apply NoDup_filter].
      * intros c1 c2 h _ _ H1 H2.
        apply list_elem_of_singleton in H1, H2. congruence.
      * intros c _. apply NoDup_singleton.
Qed.

(** The accepted causes of pairwise distinct hypotheses are pairwise
    distinct. *)
Lemma accepted_causes_NoDup (self : Inference) (effect : string)
    (hyps : list (string * string)) :
  NoDup hyps → NoDup (accepted_causes self effect hyps).
Proof.
  intros Hnd. unfold accepted_causes. apply NoDup_fmap_2_strong.
  - intros [c1 e1] [c2 e2] [[H1 _] _]%list_elem_of_filter
      [[H2 _] _]%list_elem_of_filter Hc. simpl in *. congruence.
  - by apply NoDup_filter.
Qed.

(** ** The small log *)

(** C7, counterexample: after the prima-facie test on the small log, [C]
    is not among the causes recorded for [B], yet
    [get_epsilon_average("B", "C")] returns a number instead of raising. *)
Lemma get_epsilon_average_nonmember_counterexample :
  ∃ self : Inference,
    test_for_prima_facie example_self = Ok self
    ∧ prima_facie self !! "B" = Some ["A"; "X"]
    ∧ ("C" ∉ ["A"; "X"])
    ∧ get_epsilon_average self "B" "C" = Ok (Some (0 # 2)%Q)
    ∧ ¬ raises (get_epsilon_average self "B" "C").
Proof.
  exists example_scored.
  split; [by vm_compute|]. split; [by vm_compute|].
  split; [compute_done|].
  assert (Hget : get_epsilon_average example_scored "B" "C"
                 = Ok (Some (0 # 2)%Q)) by (by vm_compute).
  split; [done|]. rewrite Hget. by intros [e ?].
Qed.

Lemma prima_facie_accepted_iff_witness :
  built_from_log example_self
  ∧ ∃ (c_and_e c_trues e_trues : nat) (accepted : bool),
      test_cause_effect_pair example_self "A" "B" = Ok (c_and_e, c_trues, e_trues)
      ∧ is_prima_facie example_self c_and_e c_trues e_trues = Ok accepted
      ∧ counts_cases (traces example_self) (case_of_log (source example_self))
      ∧ (accepted = true ↔
           (0 < c_trues)%nat
           ∧ (Qnat c_and_e / Qnat c_trues
              > Qnat e_trues / Qnat (traces example_self))%Q)
      ∧ (∀ pf, prima_facie_step example_self pf ("A", "B")
               = Ok (if accepted then record_cause pf "B" "A" else pf))
      ∧ (∀ c_and_e' e_trues',
           is_prima_facie example_self c_and_e' 0 e_trues' = Ok false).
Proof.
  split; [vm_compute; reflexivity|].
  apply (prima_facie_accepted_iff example_self "A" "B").
  vm_compute; reflexivity.
Defined.

Lemma is_prima_facie_never_divides_by_zero_witness :
  built_from_log example_self
  ∧ ∃ (c_and_e c_trues e_trues : nat) (accepted : bool),
      test_cause_effect_pair example_self "C" "B" = Ok (c_and_e, c_trues, e_trues)
      ∧ is_prima_facie example_self c_and_e c_trues e_trues = Ok accepted
      ∧ (c_trues = 0%nat → accepted = false)
      ∧ ((0 < c_trues)%nat →
         source example_self ≠ [] ∧ (1 ≤ traces example_self)%nat)
      ∧ (∀ a c e, is_prima_facie example_self a c e = Raise ZeroDivisionError
                  ↔ c ≠ 0%nat ∧ traces example_self = 0%nat)
      ∧ (∀ a e, is_prima_facie example_self a 0 e = Ok false).
Proof.
  split; [vm_compute; reflexivity|].
  apply (is_prima_facie_never_divides_by_zero example_self "C" "B").
  vm_compute; reflexivity.
Defined.

(** C3, counterexample: after the four calls on the second log the entry
    of [B] is [A, X, C, A].  The score of [X] is 2/3, the mean of Δ over
    the list [A, C, A]; the mean of Δ over the set of the other causes,
    [A] and [C], is 3/4. *)
Lemma get_epsilon_average_repeated_counterexample :
  repeated_run = Ok repeated_self
  ∧ prima_facie repeated_self !! "B" = Some ["A"; "X"; "C"; "A"]
  ∧ "X" ∈ ["A"; "X"; "C"; "A"]
  ∧ unique (filter (λ x, x ≠ "X") ["A"; "X"; "C"; "A"]) = ["A"; "C"]
  ∧ get_epsilon_average repeated_self "B" "X" = Ok (Some (32 # 48)%Q)
  ∧ (32 # 48 == 2 # 3)%Q
  ∧ (mean (delta repeated_self "B" "X" <$> ["A"; "C"]) == 3 # 4)%Q
  ∧ ¬ (32 # 48 == mean (delta repeated_self "B" "X" <$> ["A"; "C"]))%Q.
Proof.
  split; [by vm_compute|]. split; [by vm_compute|].
  split; [by apply (bool_decide_unpack _); vm_compute|].
  split; [by vm_compute|]. split; [by vm_compute|].
  split; [by vm_compute|]. split; [by vm_compute|].
  intros H. vm_compute in H. discriminate H.
Qed.

Lemma get_epsilon_average_spec_witness :
  prima_facie example_scored !! "B" = Some ["A"; "X"]
  ∧ "A" ∈ ["A"; "X"]
  ∧ (get_epsilon_average example_scored "B" "A" = Ok None
     ↔ ∀ x, x ∈ ["A"; "X"] → x = "A")
  ∧ (∃ q : Q, get_epsilon_average example_scored "B" "A" = Ok (Some q)
       ∧ (q == mean (delta example_scored "B" "A"
                       <$> filter (λ x, x ≠ "A") ["A"; "X"]))%Q).
Proof.
  assert (Hpf : prima_facie example_scored !! "B" = Some ["A"; "X"])
    by (vm_compute; reflexivity).
  assert (Hin : "A" ∈ ["A"; "X"])
    by (apply (bool_decide_unpack _); vm_compute; exact I).
  split; [exact Hpf|]. split; [exact Hin|].
  pose proof (get_epsilon_average_spec example_scored "B" "A" ["A"; "X"] Hpf Hin)
    as H.
  cbv zeta in H. destruct H as (_ & _ & Hnone & Hmean & _).
  split; [exact Hnone|].
  destruct Hmean as (q & Hq & Hm & _).
  - exists "X". split; [apply (bool_decide_unpack _); vm_compute; exact I|].
    discriminate.
  - exists q. split; [exact Hq | exact Hm].
Defined.

Lemma test_for_prima_facie_twice_witness :
  built_from_log example_self
  ∧ ∃ self1 self2 : Inference,
      test_for_prima_facie example_self = Ok self1
      ∧ test_for_prima_facie self1 = Ok self2
      ∧ dom (prima_facie self2) = dom (prima_facie self1)
      ∧ (∀ effect cause,
           cause ∈ entry (prima_facie self2) effect
           ↔ cause ∈ entry (prima_facie self1) effect).
Proof.
  split; [vm_compute; reflexivity|].
  assert (Hb : built_from_log example_self) by (vm_compute; reflexivity).
  destruct (test_for_prima_facie_twice example_self Hb)
    as (self1 & self2 & H1 & H2 & Hdom & Hmem & _).
  exists self1, self2. repeat split; try assumption; apply Hmem.
Defined.

(** * Further properties *)

(** ** What [populate_vars] builds *)

Lemma times_of_cons (r : row) (rows : list row) (obs case : string) :
  times_of (r :: rows) obs case
  = (if decide (row_case r = case ∧ row_obs r = obs) then [row_time r] else [])
    ++ times_of rows obs case.
Proof. unfold times_of. rewrite filter_cons. by case_decide. Qed.

Lemma populate_row_stored (self : Inference) (r : row) (obs case : string) :
  stored (dict_by_obs (populate_row self r)) obs case
  = if decide (row_case r = case ∧ row_obs r = obs)
    then Some (default [] (stored (dict_by_obs self) obs case) ++ [row_time r])
    else stored (dict_by_obs self) obs case.
Proof.
  unfold populate_row, stored. cbn [dict_by_obs].
  destruct (decide (row_obs r = obs)) as [<-|Hobs].
  - destruct (dict_by_obs self !! row_obs r) as [by_case|] eqn:Hd; cbn.
    + destruct (by_case !! row_case r) as [ts|] eqn:Hc;
        rewrite lookup_insert_eq; cbn; rewrite lookup_insert;
        case_decide; subst; rewrite ?decide_True, ?decide_False by tauto;
        by rewrite ?Hc.
    + rewrite lookup_insert_eq. cbn.
      destruct (decide (row_case r = case)) as [<-|Hcase].
      * by rewrite lookup_singleton_eq, decide_True.
      * by rewrite lookup_singleton_ne, decide_False by tauto.
  - rewrite decide_False by tauto.
    destruct (dict_by_obs self !! row_obs r) as [by_case|];
      [destruct (by_case !! row_case r)|]; by rewrite lookup_insert_ne.
Qed.

Lemma foldl_populate_row_stored (rows : list row) (self : Inference)
    (obs case : string) :
  stored (dict_by_obs (foldl populate_row self rows)) obs case
  = match times_of rows obs case with
    | [] => stored (dict_by_obs self) obs case
    | ts => Some (default [] (stored (dict_by_obs self) obs case) ++ ts)
    end.
Proof.
  revert self. induction rows as [|r rows IH]; intros self; [done|].
  cbn [foldl]. rewrite IH, times_of_cons, populate_row_stored.
  case_decide; cbn [app].
  - destruct (times_of rows obs case); cbn; [done|].
    by rewrite <- app_assoc.
  - done.
Qed.

Lemma init_stored (src : list row) (pb : bool) (obs case : string) :
  stored (dict_by_obs (init src pb)) obs case
  = match times_of src obs case with
    | [] => None
    | ts => Some ts
    end.
Proof.
  unfold init, populate_vars. rewrite generate_iterator_id.
  cbn [source]. rewrite foldl_populate_row_stored.
  replace (stored _ obs case) with (@None (list Z))
    by (unfold stored; cbn [dict_by_obs]; by rewrite lookup_empty).
  by destruct (times_of src obs case).
Qed.

(** X1: after [__init__], [dict_by_obs[obs][case]] exists exactly when the
    observation occurs in the case, and is then the list of its
    timestamps in the case, in row order, repeats included; [obs] is a key
    exactly when some row carries it. *)
Theorem dict_by_obs_lookup (src : list row) (pb : bool) (obs case : string) :
  (occurs_in src obs case →
     ∃ by_case, dict_by_obs (init src pb) !! obs = Some by_case
       ∧ by_case !! case = Some (times_of src obs case))
  ∧ (¬ occurs_in src obs case →
     stored (dict_by_obs (init src pb)) obs case = None)
  ∧ (stored (dict_by_obs (init src pb)) obs case ≠ Some [])
  ∧ (is_Some (dict_by_obs (init src pb) !! obs)
     → ∃ r, r ∈ src ∧ row_obs r = obs).
Proof.
  pose proof (init_stored src pb obs) as Hst.
  split; [|split; [|split]].
  - intros Hocc. apply times_of_nonempty in Hocc. specialize (Hst case).
    destruct (times_of src obs case) as [|t ts] eqn:Ht; [done|].
    unfold stored in Hst.
    destruct (dict_by_obs (init src pb) !! obs) as [by_case|]; [|done].
    by exists by_case.
  - intros Hocc. rewrite Hst.
    destruct (times_of src obs case) eqn:Ht; [done|].
    exfalso. apply Hocc, times_of_nonempty. by rewrite Ht.
  - rewrite Hst. by destruct (times_of src obs case).
  - intros [by_case Hd].
    destruct (decide (Exists (λ r, row_obs r = obs) src)) as [Hex|Hno].
    { apply Exists_exists in Hex. naive_solver. }
    exfalso. revert Hd. unfold init, populate_vars.
    rewrite generate_iterator_id. cbn [source].
    assert (Hgen : ∀ rows self, Forall (λ r, row_obs r ≠ obs) rows →
              dict_by_obs (foldl populate_row self rows) !! obs
              = dict_by_obs self !! obs).
    { clear. induction rows as [|r rows IH]; intros self Hall; [done|].
      apply Forall_cons in Hall as [Hr Hall]. cbn [foldl]. rewrite IH by done.
      unfold populate_row. cbn [dict_by_obs].
      destruct (dict_by_obs self !! row_obs r) as [bc|];
        [destruct (bc !! row_case r)|]; by rewrite lookup_insert_ne. }
    rewrite Hgen; [cbn [dict_by_obs]; by rewrite lookup_empty|].
    apply Forall_forall. intros r Hr Heq. apply Hno, Exists_exists. eauto.
Qed.

Lemma foldl_populate_row_alphabet (rows : list row) (self : Inference) :
  alphabet (foldl populate_row self rows)
  = alphabet self
    ++ filter (λ o, o ∉ alphabet self) (unique (row_obs <$> rows)).
Proof.
  revert self. induction rows as [|r rows IH]; intros self.
  - cbn. by rewrite app_nil_r.
  - cbn [foldl]. rewrite IH. cbn [fmap list_fmap unique populate_row alphabet].
    rewrite filter_cons. destruct (decide (row_obs r ∈ alphabet self)) as [Hin|Hin].
    + rewrite decide_False by tauto. f_equal.
      rewrite list_filter_filter. apply list_filter_iff. naive_solver.
    + rewrite decide_True by done. rewrite <- app_assoc. cbn [app]. do 2 f_equal.
      rewrite list_filter_filter. apply list_filter_iff.
      intros o. rewrite elem_of_app, list_elem_of_singleton. tauto.
Qed.

(** X2: on a log whose observation labels are strings, on which
    [str(obs)] is [obs], [alphabet] lists after [__init__] the labels of
    the log, each once, in the order of their first appearance. *)
Theorem alphabet_first_appearance (src : list row) (pb : bool) :
  alphabet (init src pb) = unique (row_obs <$> src)
  ∧ NoDup (alphabet (init src pb))
  ∧ ∀ obs, obs ∈ alphabet (init src pb) ↔ ∃ r, r ∈ src ∧ row_obs r = obs.
Proof.
  assert (Ha : alphabet (init src pb) = unique (row_obs <$> src)).
  { unfold init, populate_vars. rewrite generate_iterator_id. cbn [source].
    rewrite foldl_populate_row_alphabet. cbn [alphabet app].
    induction (unique (row_obs <$> src)) as [|o l IH]; [done|].
    rewrite filter_cons_True by (by intros ?%elem_of_nil). by rewrite IH. }
  rewrite Ha. split; [done|]. split; [apply NoDup_unique|].
  intros obs. rewrite elem_of_unique, list_elem_of_fmap. naive_solver.
Qed.

Lemma foldl_populate_row_max_time (rows : list row) (self : Inference) :
  max_time (foldl populate_row self rows)
  = match rows with
    | [] => max_time self
    | _ :: _ => default (max_time self) (row_time <$> last (source self))
    end.
Proof.
  revert self. induction rows as [|r rows IH]; intros self; [done|].
  cbn [foldl]. rewrite IH. destruct rows; [done|].
  cbn [populate_row source max_time]. by destruct (last (source self)).
Qed.

(** X3: after [__init__], [max_time] is the timestamp of the last row of
    the log, in whatever order the rows come, and 0 on an empty log. *)
Theorem max_time_last_row (src : list row) (pb : bool) :
  max_time (init src pb) = default 0 (row_time <$> last src)
  ∧ (src = [] → max_time (init src pb) = 0)
  ∧ (∀ rows r, src = rows ++ [r] → max_time (init src pb) = row_time r).
Proof.
  assert (Hm : max_time (init src pb) = default 0 (row_time <$> last src)).
  { unfold init, populate_vars. rewrite generate_iterator_id. cbn [source].
    rewrite foldl_populate_row_max_time. by destruct src. }
  split; [done|]. split.
  - intros ->. by rewrite Hm.
  - intros rows r ->. by rewrite Hm, last_snoc.
Qed.

(** X4: on a log in ascending order of time that is not empty,
    [max_time] is the largest timestamp of the log. *)
Theorem max_time_ascending (src : list row) (pb : bool) :
  ascending src → src ≠ [] →
  is_max (max_time (init src pb)) (row_time <$> src).
Proof.
  intros Hs Hne.
  assert (Hm : max_time (init src pb) = default 0 (row_time <$> last src)).
  { unfold init, populate_vars. rewrite generate_iterator_id. cbn [source].
    rewrite foldl_populate_row_max_time. by destruct src. }
  destruct (last src) as [r|] eqn:Hl; [|by apply last_is_Some in Hne as [? ?]; congruence].
  apply last_Some in Hl as [rows ->]. rewrite Hm. cbn. split.
  - apply list_elem_of_fmap. exists r. split; [done|].
    apply elem_of_app. right. by left.
  - intros t (r' & -> & Hin)%list_elem_of_fmap.
    apply elem_of_app in Hin as [Hin|Hin%list_elem_of_singleton]; [|by subst].
    unfold ascending in Hs.
    apply (StronglySorted_app_1_elem_of _ rows [r] r' r Hs Hin). by left.
Qed.

Lemma max_time_ascending_witness :
  ascending example_log ∧ example_log ≠ []
  ∧ is_max (max_time (init example_log false)) (row_time <$> example_log).
Proof.
  assert (Hs : ascending example_log).
  { unfold ascending. apply (bool_decide_unpack _). vm_compute. exact I. }
  assert (Hne : example_log ≠ []) by discriminate.
  split; [exact Hs|]. split; [exact Hne|].
  exact (max_time_ascending example_log false Hs Hne).
Defined.

Lemma length_unique_le `{EqDecision A} (l : list A) :
  (length (unique l) ≤ length l)%nat.
Proof.
  induction l as [|x l IH]; simpl; [lia|].
  pose proof (length_filter (λ y, y ≠ x) (unique l)). lia.
Qed.

(** X5: after [__init__], [events] is the number of rows and [traces] the
    number of distinct case identifiers; there are at most as many cases
    as rows, and no case exactly when there is no row. *)
Theorem events_and_traces (src : list row) (pb : bool) :
  events (init src pb) = length src
  ∧ counts_cases (traces (init src pb)) (case_of_log src)
  ∧ (traces (init src pb) ≤ events (init src pb))%nat
  ∧ (traces (init src pb) = 0%nat ↔ src = []).
Proof.
  unfold init.
  match goal with |- context [populate_vars ?s] =>
    destruct (populate_vars_fields s) as (Hsrc & Htr & Hev & _) end.
  rewrite Htr, Hev. cbn [source]. split; [done|]. split; [|split].
  - eapply counts_cases_ext; [|apply counts_cases_unique_list].
    intros case. unfold case_of_log. rewrite list_elem_of_fmap. naive_solver.
  - etrans; [apply length_unique_le|]. by rewrite length_fmap.
  - destruct src; [done|]. cbn. split; [lia | done].
Qed.

(** ** Hypotheses *)

Lemma length_bind_singleton {A B : Type} (f : A → B) (l : list A) :
  length (l ≫= λ x, [f x]) = length l.
Proof. induction l as [|x l IH]; [done|]. cbn. by rewrite IH. Qed.

(** X7: [generate_hypotheses_for_effects] yields at most one hypothesis
    per pair of an effect and a cause, and exactly one per pair when no
    label is both a cause and an effect. *)
Theorem hypotheses_count (self : Inference) (causes effects : list string) :
  (∀ label, label ∈ causes → label ∉ effects) →
  length (hypotheses (generate_hypotheses_for_effects self causes effects))
  = (length effects * length causes)%nat.
Proof.
  intros Hdisj. cbn. induction effects as [|e es IH]; [done|].
  cbn. rewrite length_app, IH.
  - f_equal. rewrite (length_bind_singleton (λ cause, (cause, e))).
    f_equal. apply filter_all. intros c Hc ->. apply (Hdisj e Hc). left.
  - intros label Hl He. apply (Hdisj label Hl). by right.
Qed.

Lemma hypotheses_count_witness :
  (∀ label, label ∈ ["A"; "X"; "C"] → label ∉ ["B"])
  ∧ length (hypotheses (generate_hypotheses_for_effects
                          (init example_log false) ["A"; "X"; "C"] ["B"]))
    = (length ["B"] * length ["A"; "X"; "C"])%nat.
Proof.
  assert (H : ∀ label, label ∈ ["A"; "X"; "C"] → label ∉ ["B"]).
  { intros label Hl Hb. apply list_elem_of_singleton in Hb as ->.
    revert Hl. apply (bool_decide_unpack _). vm_compute. exact I. }
  split; [exact H|].
  exact (hypotheses_count (init example_log false) ["A"; "X"; "C"] ["B"] H).
Defined.

(** ** The counters of a hypothesis *)

Lemma counts_cases_mono (n m : nat) (P Q : string → Prop) :
  (∀ case, P case → Q case) → counts_cases n P → counts_cases m Q → (n ≤ m)%nat.
Proof.
  intros HPQ (l & Hnd & Hl & ->) (k & Hnd' & Hk & ->).
  apply submseteq_length, NoDup_submseteq; [done|].
  intros case. rewrite Hl, Hk. auto.
Qed.

Lemma counts_cases_cases_of (src : list row) (label : string) :
  counts_cases (length (cases_of label src)) (occurs_in src label).
Proof.
  exists (cases_of label src). split; [apply NoDup_unique|]. split; [|done].
  intros case. apply elem_of_cases_of.
Qed.

Lemma weakly_precedes_refl (src : list row) (label case : string) :
  occurs_in src label case → weakly_precedes src label label case.
Proof.
  intros Hocc. apply times_of_nonempty in Hocc.
  destruct (np_min_returns _ Hocc) as [lo Hlo].
  destruct (np_max_returns _ Hocc) as [hi Hhi].
  apply np_min_Ok in Hlo. apply np_max_Ok in Hhi.
  exists lo, hi. split; [done|]. split; [done|].
  destruct Hlo as [Hin _]. destruct Hhi as [_ Hle]. by apply Hle.
Qed.

(** X8: [test_cause_effect_pair] returns the number of cases that contain
    the cause and the number of cases that contain the effect as its
    second and third counters; the first counter exceeds neither, and
    equals both when the cause and the effect are the same label. *)
Theorem test_cause_effect_pair_counters (self : Inference) (cause effect : string) :
  ∃ c_and_e c_trues e_trues : nat,
    test_cause_effect_pair self cause effect = Ok (c_and_e, c_trues, e_trues)
    ∧ counts_cases c_trues (occurs_in (source self) cause)
    ∧ counts_cases e_trues (occurs_in (source self) effect)
    ∧ (c_and_e ≤ c_trues)%nat ∧ (c_and_e ≤ e_trues)%nat
    ∧ (cause = effect → c_and_e = c_trues).
Proof.
  destruct (test_cause_effect_pair_counts self cause effect) as (n & Hret & Hn).
  pose proof (counts_cases_cases_of (source self) cause) as Hc.
  pose proof (counts_cases_cases_of (source self) effect) as He.
  eexists n, _, _. split; [exact Hret|]. split; [done|]. split; [done|].
  split; [|split].
  - eapply counts_cases_mono; [|exact Hn|exact Hc]. naive_solver.
  - eapply counts_cases_mono; [|exact Hn|exact He]. naive_solver.
  - intros <-. eapply counts_cases_functional; [exact Hn|].
    eapply counts_cases_ext; [|exact Hc].
    intros case. split; [|naive_solver].
    intros Hocc. split; [done|]. split; [done|]. by apply weakly_precedes_refl.
Qed.

(** Comparing two quotients of counters is comparing the cross products. *)
Lemma Qnat_div_lt (a b c d : nat) :
  (0 < b)%nat → (0 < d)%nat →
  (Qnat a / Qnat b < Qnat c / Qnat d)%Q ↔ (a * d < c * b)%nat.
Proof.
  intros Hb Hd. destruct b as [|b]; [lia|]. destruct d as [|d]; [lia|].
  unfold Qnat, Qdiv, Qlt, Qmult, Qinv, inject_Z. cbn [Qnum Qden].
  change (Z.of_nat (S b)) with (Z.pos (Pos.of_succ_nat b)).
  change (Z.of_nat (S d)) with (Z.pos (Pos.of_succ_nat d)).
  cbn [Qnum Qden]. lia.
Qed.

Lemma counts_cases_missing (n m : nat) (P Q : string → Prop) :
  counts_cases n P → counts_cases m Q → (n < m)%nat →
  ∃ case, Q case ∧ ¬ P case.
Proof.
  intros (l & Hnd & Hl & ->) (k & Hnd' & Hk & ->) Hlt.
  destruct (decide (Forall (λ case, case ∈ l) k)) as [Hall|Hno].
  - rewrite Forall_forall in Hall.
    pose proof (submseteq_length _ _ (NoDup_submseteq k l Hnd' Hall)). lia.
  - apply not_Forall_Exists in Hno; [|apply _].
    apply Exists_exists in Hno as (case & Hin & Hout).
    exists case. rewrite <- Hk, <- Hl. split; [done | exact Hout].
Qed.

Lemma accepts_decision (self : Inference) (cause effect : string)
    (c_and_e c_trues e_trues : nat) (accepted : bool) :
  test_cause_effect_pair self cause effect = Ok (c_and_e, c_trues, e_trues) →
  is_prima_facie self c_and_e c_trues e_trues = Ok accepted →
  accepts self cause effect = accepted.
Proof. intros Ht Hp. unfold accepts. by rewrite Ht, Hp. Qed.

(** X9: on an object built from a log, a hypothesis is accepted exactly
    when [e_trues * c_trues < c_and_e * traces], the comparison of the two
    quotients cross-multiplied; an accepted hypothesis has a case in which
    the cause weakly precedes the effect, and its effect is missing from
    some case of the log. *)
Theorem accepts_cross_product (self : Inference) (cause effect : string) :
  built_from_log self →
  ∃ c_and_e c_trues e_trues : nat,
    test_cause_effect_pair self cause effect = Ok (c_and_e, c_trues, e_trues)
    ∧ (accepts self cause effect = true
       ↔ (e_trues * c_trues < c_and_e * traces self)%nat)
    ∧ (accepts self cause effect = true →
       (∃ case, occurs_in (source self) cause case
          ∧ occurs_in (source self) effect case
          ∧ weakly_precedes (source self) cause effect case)
       ∧ (∃ case, case_of_log (source self) case
          ∧ ¬ occurs_in (source self) effect case)).
Proof.
  intros Hb.
  destruct (prima_facie_decision self cause effect Hb) as (a & acc & Ht & Hp & Hiff).
  destruct (test_cause_effect_pair_counts self cause effect) as (a' & Ht' & Ha).
  assert (a' = a) as -> by congruence. clear Ht'.
  pose proof (counts_cases_cases_of (source self) cause) as Hc.
  pose proof (counts_cases_cases_of (source self) effect) as He.
  pose proof (built_from_log_counts self Hb) as Hlog.
  set (c := length (cases_of cause (source self))) in *.
  set (e := length (cases_of effect (source self))) in *.
  assert (Hac : (a ≤ c)%nat)
    by (eapply counts_cases_mono; [|exact Ha|exact Hc]; naive_solver).
  assert (Hcross : accepts self cause effect = true ↔ (e * c < a * traces self)%nat).
  { rewrite (accepts_decision _ _ _ _ _ _ _ Ht Hp), Hiff.
    destruct (decide (c = 0)%nat) as [Hz|Hnz]; [split; [lia | nia]|].
    destruct (cases_of_pos_traces_pos self cause Hb) as [_ Hpos]; [fold c; lia|].
    rewrite Qnat_div_lt by lia. split; [by intros [_ ?] | intros ?; split; [lia|done]]. }
  exists a, c, e. split; [done|]. split; [done|].
  intros Hacc. apply Hcross in Hacc. split.
  - destruct Ha as (l & _ & Hl & ->). destruct l as [|case l]; [simpl in *; lia|].
    exists case. apply Hl. left.
  - apply (counts_cases_missing e (traces self) _ _ He Hlog). nia.
Qed.

Lemma accepts_cross_product_witness :
  built_from_log example_self
  ∧ ∃ c_and_e c_trues e_trues : nat,
      test_cause_effect_pair example_self "A" "B" = Ok (c_and_e, c_trues, e_trues)
      ∧ (accepts example_self "A" "B" = true
         ↔ (e_trues * c_trues < c_and_e * traces example_self)%nat).
Proof.
  assert (Hb : built_from_log example_self) by (vm_compute; reflexivity).
  split; [exact Hb|].
  destruct (accepts_cross_product example_self "A" "B" Hb)
    as (a & c & e & Ht & Hiff & _).
  exists a, c, e. split; [exact Ht | exact Hiff].
Defined.

(** ** One pass of the prima-facie test *)

Lemma elem_of_accepted_causes (self : Inference) (effect cause : string)
    (hyps : list (string * string)) :
  cause ∈ accepted_causes self effect hyps
  ↔ (cause, effect) ∈ hyps ∧ accepts self cause effect = true.
Proof.
  unfold accepted_causes. rewrite list_elem_of_fmap. split.
  - intros ([c e] & -> & [[He Ha] Hin]%list_elem_of_filter). simpl in *.
    by subst e.
  - intros [Hin Ha]. exists (cause, effect). split; [done|].
    by apply list_elem_of_filter.
Qed.

(** X10: on an object built from a log, [test_for_prima_facie] returns
    and changes nothing but the prima-facie map: the object it leaves is
    the one it was called on with another map, so [source], [pb],
    [dict_by_obs], [alphabet], [events], [traces], [max_time] and
    [hypotheses] are as before.  In the map it keeps every entry as a
    prefix and appends the causes of the accepted hypotheses on the
    effect, so nothing is ever removed; an effect is a key afterwards
    exactly when it was one before or one of its hypotheses was accepted,
    and no entry that it creates is empty. *)
Theorem test_for_prima_facie_appends (self : Inference) :
  built_from_log self →
  ∃ self' : Inference,
    test_for_prima_facie self = Ok self'
    ∧ self' = set_prima_facie (prima_facie self') self
    ∧ source self' = source self ∧ pb self' = pb self
    ∧ dict_by_obs self' = dict_by_obs self ∧ alphabet self' = alphabet self
    ∧ events self' = events self ∧ traces self' = traces self
    ∧ max_time self' = max_time self ∧ hypotheses self' = hypotheses self
    ∧ (∀ effect, ∃ added,
         entry (prima_facie self') effect
         = entry (prima_facie self) effect ++ added
         ∧ ∀ cause, cause ∈ added
             ↔ (cause, effect) ∈ hypotheses self
               ∧ accepts self cause effect = true)
    ∧ (∀ effect, is_Some (prima_facie self' !! effect)
         ↔ is_Some (prima_facie self !! effect)
           ∨ ∃ cause, (cause, effect) ∈ hypotheses self
               ∧ accepts self cause effect = true)
    ∧ (∀ effect causes,
         prima_facie self !! effect = None →
         prima_facie self' !! effect = Some causes → causes ≠ []).
Proof.
  intros Hb.
  destruct (test_for_prima_facie_returns self Hb) as (pf' & Hret & Hentry & Hnone).
  exists (set_prima_facie pf' self). split; [done|]. cbn.
  do 9 (split; [done|]). split; [|split].
  - intros effect. exists (accepted_causes self effect (hypotheses self)).
    split; [apply Hentry|]. intros cause. apply elem_of_accepted_causes.
  - intros effect. rewrite <- !not_eq_None_Some, Hnone. split.
    + intros Hno. destruct (prima_facie self !! effect) eqn:Hpf; [by left|].
      right. destruct (accepted_causes self effect (hypotheses self))
        as [|cause l] eqn:Hacc; [by destruct Hno|].
      exists cause. apply elem_of_accepted_causes. rewrite Hacc. left.
    + intros [Hsome|(cause & Hc)] [Hpf Hacc]; [done|].
      apply elem_of_accepted_causes in Hc. rewrite Hacc in Hc.
      by apply elem_of_nil in Hc.
  - intros effect causes Hpf Hpf' ->. specialize (Hentry effect).
    unfold entry in Hentry. rewrite Hpf, Hpf' in Hentry. cbn in Hentry.
    assert (Hn : pf' !! effect = None) by (apply Hnone; by split).
    congruence.
Qed.

Lemma test_for_prima_facie_appends_witness :
  built_from_log example_self
  ∧ ∃ self' : Inference,
      test_for_prima_facie example_self = Ok self'
      ∧ self' = set_prima_facie (prima_facie self') example_self
      ∧ events self' = events example_self
      ∧ max_time self' = max_time example_self
      ∧ pb self' = pb example_self.
Proof.
  assert (Hb : built_from_log example_self) by (vm_compute; reflexivity).
  split; [exact Hb|].
  destruct (test_for_prima_facie_appends example_self Hb)
    as (self' & Hret & Heq & _ & Hpb & _ & _ & Hev & _ & Hmt & _).
  exists self'. split; [exact Hret|]. split; [exact Heq|].
  split; [exact Hev|]. split; [exact Hmt | exact Hpb].
Defined.

(** X11: from the log to the prima-facie map: after
    [generate_hypotheses_for_effects] and one call of
    [test_for_prima_facie] on a fresh object, a cause is listed for an
    effect exactly when it is one of the given causes, the effect one of
    the given effects, the two differ and the hypothesis is accepted; no
    label is listed as a cause of itself. *)
Theorem prima_facie_pipeline (src : list row) (pb : bool)
    (causes effects : list string) :
  ∃ self' : Inference,
    test_for_prima_facie
      (generate_hypotheses_for_effects (init src pb) causes effects) = Ok self'
    ∧ (∀ effect cause,
         cause ∈ entry (prima_facie self') effect
         ↔ cause ∈ causes ∧ effect ∈ effects ∧ cause ≠ effect
           ∧ accepts (init src pb) cause effect = true)
    ∧ (∀ label, label ∉ entry (prima_facie self') label)
    ∧ (∀ effect, is_Some (prima_facie self' !! effect) → effect ∈ effects).
Proof.
  set (self := generate_hypotheses_for_effects (init src pb) causes effects).
  assert (Hb : built_from_log self).
  { apply generate_hypotheses_built_from_log, init_built_from_log. }
  assert (Hempty : prima_facie self = ∅).
  { unfold self. cbn. apply init_built_from_log. }
  destruct (test_for_prima_facie_returns self Hb) as (pf' & Hret & Hentry & Hnone).
  destruct (generate_hypotheses_spec (init src pb) causes effects) as [Hgen _].
  assert (Hmem : ∀ effect cause, cause ∈ entry pf' effect
            ↔ cause ∈ causes ∧ effect ∈ effects ∧ cause ≠ effect
              ∧ accepts (init src pb) cause effect = true).
  { intros effect cause. rewrite Hentry. unfold entry at 1.
    rewrite Hempty, lookup_empty. cbn [default app].
    rewrite elem_of_accepted_causes. fold self in Hgen. rewrite Hgen.
    change (accepts self cause effect) with (accepts (init src pb) cause effect).
    tauto. }
  exists (set_prima_facie pf' self). split; [done|]. cbn.
  split; [done|]. split.
  - intros label Hin. apply Hmem in Hin. tauto.
  - intros effect Hsome. apply not_eq_None_Some in Hsome.
    rewrite Hnone, Hempty, lookup_empty in Hsome.
    destruct (accepted_causes self effect (hypotheses self)) as [|c l] eqn:Hacc;
      [by destruct Hsome|].
    assert (Hc : c ∈ accepted_causes self effect (hypotheses self))
      by (rewrite Hacc; left).
    apply elem_of_accepted_causes in Hc as [Hc _]. apply Hgen in Hc. tauto.
Qed.

(** ** Bounds on the scores *)

Lemma Qnat_div_bounds (a b : nat) :
  (a ≤ b)%nat → (0 < b)%nat → (0 <= Qnat a / Qnat b ∧ Qnat a / Qnat b <= 1)%Q.
Proof.
  intros Hab Hb. destruct b as [|b]; [lia|].
  unfold Qnat, Qdiv, Qle, Qmult, Qinv, inject_Z. cbn [Qnum Qden].
  change (Z.of_nat (S b)) with (Z.pos (Pos.of_succ_nat b)).
  cbn [Qnum Qden]. split; lia.
Qed.

Lemma counts_cases_zero (P : string → Prop) :
  counts_cases 0 P ↔ ∀ case, ¬ P case.
Proof.
  split.
  - intros (l & _ & Hl & Hlen) case HP. destruct l; [|done].
    apply Hl in HP. by apply elem_of_nil in HP.
  - intros Hno. exists []. split; [constructor|]. split; [|done].
    intros case. split; [by intros ?%elem_of_nil | by intros ?%Hno].
Qed.

(** X12: the term Δ(effect, cause, x) lies between -1 and 1; it is 0
    unless [x] occurs in some case together with the cause and in some
    case without it. *)
Theorem calculate_probability_differences_bounds (self : Inference)
    (effect cause x : string) :
  ∃ d : Q,
    calculate_probability_differences self effect cause x = Ok d
    ∧ (-1 <= d)%Q ∧ (d <= 1)%Q
    ∧ ((∀ case, occurs_in (source self) x case →
                ¬ occurs_in (source self) cause case) → d = 0%Q)
    ∧ ((∀ case, occurs_in (source self) x case →
                occurs_in (source self) cause case) → d = 0%Q).
Proof.
  destruct (probability_counters_spec self effect cause x)
    as (k & Hk & C1 & C2 & C3 & C4).
  assert (H12 : (c_and_x_and_e k ≤ c_and_x k)%nat)
    by (eapply counts_cases_mono; [|exact C2|exact C1]; naive_solver).
  assert (H34 : (not_c_and_x_and_e k ≤ not_c_and_x k)%nat)
    by (eapply counts_cases_mono; [|exact C4|exact C3]; naive_solver).
  unfold calculate_probability_differences. rewrite Hk. cbn. unfold truediv.
  destruct (decide (c_and_x k = 0%nat ∨ not_c_and_x k = 0%nat)) as [Hz|Hnz].
  - exists 0%Q. split; [done|]. split; [done|]. split; [done|]. done.
  - rewrite !decide_False by tauto. cbn. eexists. split; [done|].
    destruct (Qnat_div_bounds _ _ H12) as [? ?]; [lia|].
    destruct (Qnat_div_bounds _ _ H34) as [? ?]; [lia|].
    split; [lra|]. split; [lra|]. split.
    + intros Hno. exfalso. apply Hnz. left.
      destruct (c_and_x k); [done|].
      destruct C1 as (l & _ & Hl & Hlen). destruct l as [|case l]; [done|].
      destruct (Hl case) as [[Hx Hc] _]; [left|]. by apply Hno in Hx.
    + intros Hall. exfalso. apply Hnz. right.
      destruct (not_c_and_x k); [done|].
      destruct C3 as (l & _ & Hl & Hlen). destruct l as [|case l]; [done|].
      destruct (Hl case) as [[Hx Hc] _]; [left|]. by apply Hall in Hx.
Qed.

Lemma delta_bounds (self : Inference) (effect cause x : string) :
  (-1 <= delta self effect cause x ∧ delta self effect cause x <= 1)%Q.
Proof.
  destruct (probability_counters_spec self effect cause x)
    as (k & Hk & C1 & C2 & C3 & C4).
  assert (H12 : (c_and_x_and_e k ≤ c_and_x k)%nat)
    by (eapply counts_cases_mono; [|exact C2|exact C1]; naive_solver).
  assert (H34 : (not_c_and_x_and_e k ≤ not_c_and_x k)%nat)
    by (eapply counts_cases_mono; [|exact C4|exact C3]; naive_solver).
  unfold delta, calculate_probability_differences. rewrite Hk. cbn.
  unfold truediv.
  destruct (decide (c_and_x k = 0%nat ∨ not_c_and_x k = 0%nat)) as [Hz|Hnz].
  - cbn. split; done.
  - rewrite !decide_False by tauto. cbn.
    destruct (Qnat_div_bounds _ _ H12) as [? ?]; [lia|].
    destruct (Qnat_div_bounds _ _ H34) as [? ?]; [lia|].
    split; lra.
Qed.

Lemma Qnat_S (n : nat) : (Qnat (S n) == Qnat n + 1)%Q.
Proof.
  unfold Qnat. rewrite Nat2Z.inj_succ. unfold Z.succ.
  by rewrite inject_Z_plus.
Qed.

Lemma Qnat_pos (n : nat) : (0 < n)%nat → (0 < Qnat n)%Q.
Proof.
  intros Hn. unfold Qnat, Qlt, inject_Z. cbn. lia.
Qed.

Lemma Qsum_bounds (l : list Q) :
  (∀ d, d ∈ l → (-1 <= d ∧ d <= 1)%Q) →
  (- Qnat (length l) <= Qsum l ∧ Qsum l <= Qnat (length l))%Q.
Proof.
  induction l as [|d l IH]; intros Hall.
  - unfold Qsum, Qnat. cbn. split; done.
  - destruct IH as [IH1 IH2]; [intros d' Hd'; apply Hall; by right|].
    destruct (Hall d) as [Hd1 Hd2]; [left|].
    cbn [length]. rewrite Qnat_S. unfold Qsum in *. cbn [foldr]. split; lra.
Qed.

Lemma mean_bounds (l : list Q) :
  l ≠ [] → (∀ d, d ∈ l → (-1 <= d ∧ d <= 1)%Q) →
  (-1 <= mean l ∧ mean l <= 1)%Q.
Proof.
  intros Hne Hall. destruct (Qsum_bounds l Hall) as [H1 H2].
  assert (Hpos : (0 < Qnat (length l))%Q)
    by (apply Qnat_pos; destruct l; [done | simpl; lia]).
  unfold mean. split.
  - apply Qle_shift_div_l; [done|]. lra.
  - apply Qle_shift_div_r; [done|]. lra.
Qed.

(** X13: a score that [get_epsilon_average] returns lies between -1 and
    1, whatever the entry lists. *)
Theorem get_epsilon_average_bounds (self : Inference) (effect cause : string)
    (q : Q) :
  get_epsilon_average self effect cause = Ok (Some q) →
  (-1 <= q)%Q ∧ (q <= 1)%Q.
Proof.
  intros Hq. destruct (prima_facie self !! effect) as [causes|] eqn:Hpf;
    [|by rewrite (get_epsilon_average_no_entry _ _ _ Hpf) in Hq].
  destruct (decide (filter (λ x, x ≠ cause) causes = [])) as [Hnil|Hne].
  { by rewrite (get_epsilon_average_alone _ _ _ _ Hpf Hnil) in Hq. }
  destruct (get_epsilon_average_mean self effect cause causes Hpf Hne)
    as (q' & Hq' & Hmean).
  assert (q' = q) as -> by congruence.
  rewrite Hmean. apply mean_bounds.
  - intros Hnil. apply fmap_nil_inv in Hnil. done.
  - intros d (x & -> & _)%list_elem_of_fmap. apply delta_bounds.
Qed.

Lemma get_epsilon_average_bounds_witness :
  get_epsilon_average example_scored "B" "A" = Ok (Some (2 # 4)%Q)
  ∧ (-1 <= 2 # 4)%Q ∧ (2 # 4 <= 1)%Q.
Proof.
  assert (H : get_epsilon_average example_scored "B" "A" = Ok (Some (2 # 4)%Q))
    by (vm_compute; reflexivity).
  split; [exact H|].
  exact (get_epsilon_average_bounds example_scored "B" "A" (2 # 4)%Q H).
Defined.

(** ** Writing the scores *)

Lemma get_epsilon_average_entry_returns (self : Inference)
    (effect cause : string) (causes : list string) :
  prima_facie self !! effect = Some causes →
  ∃ epsilon, get_epsilon_average self effect cause = Ok epsilon.
Proof.
  intros Hpf.
  destruct (decide (filter (λ x, x ≠ cause) causes = [])) as [Hnil|Hne].
  - exists None. by eapply get_epsilon_average_alone.
  - destruct (get_epsilon_average_mean self effect cause causes Hpf Hne)
      as (q & Hq & _). by exists (Some q).
Qed.

Lemma write_effect_rows_spec (self : Inference) (effect : string)
    (causes : list string) (rows : list (string * string * option Q)) :
  prima_facie self !! effect = Some causes →
  ∃ written,
    write_effect_rows self rows effect = Ok (rows ++ written)
    ∧ written.*1 = (λ cause, (cause, effect)) <$> causes
    ∧ ∀ cause epsilon, (cause, effect, epsilon) ∈ written →
        get_epsilon_average self effect cause = Ok epsilon.
Proof.
  intros Hpf. unfold write_effect_rows. rewrite Hpf.
  cbn [mbind result_bind]. rewrite generate_iterator_id.
  assert (Hall : ∀ cause, cause ∈ causes →
            ∃ eps, get_epsilon_average self effect cause = Ok eps).
  { intros cause _.
    destruct (get_epsilon_average_entry_returns self effect cause causes Hpf)
      as [eps Heps]. eauto. }
  clear Hpf. revert rows. induction causes as [|c cs IH]; intros rows.
  - exists []. cbn. rewrite app_nil_r. split; [done|]. split; [done|].
    by intros ? ? ?%elem_of_nil.
  - destruct (Hall c) as [eps Heps]; [left|].
    cbn [for_each]. rewrite Heps. cbn [mbind result_bind mret result_ret].
    destruct (IH (λ cause Hc, Hall cause (list_elem_of_further _ _ _ Hc))
                (rows ++ [(c, effect, eps)])) as (written & -> & Hkeys & Hval).
    exists ((c, effect, eps) :: written). rewrite <- app_assoc. split; [done|].
    split; [cbn; by rewrite Hkeys|].
    intros cause epsilon [[= -> ->]|Hin]%elem_of_cons; [done | by apply Hval].
Qed.

Lemma for_each_write_effect_rows (self : Inference) (effects : list string)
    (rows : list (string * string * option Q)) :
  (∀ effect, effect ∈ effects → is_Some (prima_facie self !! effect)) →
  ∃ written,
    for_each (write_effect_rows self) rows effects = Ok (rows ++ written)
    ∧ written.*1
      = (effect ← effects;
         (λ cause, (cause, effect)) <$> entry (prima_facie self) effect)
    ∧ ∀ cause effect epsilon, (cause, effect, epsilon) ∈ written →
        get_epsilon_average self effect cause = Ok epsilon.
Proof.
  revert rows. induction effects as [|e es IH]; intros rows Hkeys.
  - exists []. cbn. rewrite app_nil_r. split; [done|]. split; [done|].
    by intros ? ? ? ?%elem_of_nil.
  - destruct (Hkeys e) as [causes Hpf]; [left|].
    destruct (write_effect_rows_spec self e causes rows Hpf)
      as (w1 & Hw1 & Hk1 & Hv1).
    cbn [for_each]. rewrite Hw1. cbn [mbind result_bind].
    destruct (IH (rows ++ w1)) as (w2 & -> & Hk2 & Hv2).
    { intros effect He. apply Hkeys. by right. }
    exists (w1 ++ w2). rewrite app_assoc. split; [done|]. split.
    + rewrite fmap_app, Hk1, Hk2. cbn. unfold entry at 2. by rewrite Hpf.
    + intros cause effect epsilon [Hin|Hin]%elem_of_app; [|by eapply Hv2].
      assert (Heff : (cause, effect) ∈ w1.*1).
      { apply list_elem_of_fmap. by exists (cause, effect, epsilon). }
      rewrite Hk1 in Heff. apply list_elem_of_fmap in Heff as (c & [= -> ->] & _).
      by apply Hv1.
Qed.

(** X15: walking the keys of the prima-facie map,
    [calculate_average_epsilons] never raises: every score it asks for is
    on an existing entry.  It writes one row per listed cause, effect by
    effect in the order of the keys and cause by cause in the order of
    the entry, each with the score [get_epsilon_average] returns. *)
Theorem calculate_average_epsilons_rows (self : Inference) (effects : list string) :
  (∀ effect, effect ∈ effects → is_Some (prima_facie self !! effect)) →
  ∃ rows,
    calculate_average_epsilons self effects = Ok rows
    ∧ rows.*1
      = (effect ← effects;
         (λ cause, (cause, effect)) <$> entry (prima_facie self) effect)
    ∧ ∀ cause effect epsilon, (cause, effect, epsilon) ∈ rows →
        get_epsilon_average self effect cause = Ok epsilon.
Proof.
  intros Hkeys.
  destruct (for_each_write_effect_rows self effects [] Hkeys)
    as (written & Hret & Hk & Hv).
  exists written. split; [exact Hret|]. split; [exact Hk | exact Hv].
Qed.

Lemma calculate_average_epsilons_rows_witness :
  (∀ effect, effect ∈ ["B"] → is_Some (prima_facie example_scored !! effect))
  ∧ ∃ rows,
      calculate_average_epsilons example_scored ["B"] = Ok rows
      ∧ rows.*1 = [("A", "B"); ("X", "B")].
Proof.
  assert (H : ∀ effect, effect ∈ ["B"] →
                is_Some (prima_facie example_scored !! effect)).
  { intros effect ->%list_elem_of_singleton. vm_compute. eauto. }
  split; [exact H|].
  destruct (calculate_average_epsilons_rows example_scored ["B"] H)
    as (rows & Hret & Hk & _).
  exists rows. split; [exact Hret|]. rewrite Hk. vm_compute. reflexivity.
Defined.

(** X16: the hypotheses generated from causes and effects that are each
    listed once are pairwise distinct; a pair is generated exactly when
    its cause is a given cause, its effect a given effect and the two
    differ. *)
Theorem hypotheses_distinct (self : Inference) (causes effects : list string) :
  NoDup causes → NoDup effects →
  NoDup (hypotheses (generate_hypotheses_for_effects self causes effects))
  ∧ ∀ cause effect,
      (cause, effect)
        ∈ hypotheses (generate_hypotheses_for_effects self causes effects)
      ↔ cause ∈ causes ∧ effect ∈ effects ∧ cause ≠ effect.
Proof.
  intros Hc He.
  destruct (generate_hypotheses_spec self causes effects) as [Hmem Hnd].
  split; [by apply Hnd | exact Hmem].
Qed.

Lemma hypotheses_distinct_witness :
  NoDup ["A"; "X"; "C"] ∧ NoDup ["B"]
  ∧ NoDup (hypotheses (generate_hypotheses_for_effects
                         (init example_log false) ["A"; "X"; "C"] ["B"])).
Proof.
  assert (Hc : NoDup ["A"; "X"; "C"])
    by (apply (bool_decide_unpack _); vm_compute; exact I).
  assert (He : NoDup ["B"])
    by (apply (bool_decide_unpack _); vm_compute; exact I).
  split; [exact Hc|]. split; [exact He|].
  exact (proj1 (hypotheses_distinct (init example_log false)
                  ["A"; "X"; "C"] ["B"] Hc He)).
Defined.

(** X6: one pass over pairwise distinct hypotheses, from the empty
    dictionary, records for every effect exactly the causes of its
    accepted hypotheses, in the order of the hypothesis list and each
    once: every entry is a set, and an effect is a key exactly when one
    of its hypotheses was accepted. *)
Theorem test_for_prima_facie_entries_set (self : Inference) :
  built_from_log self → prima_facie self = ∅ → NoDup (hypotheses self) →
  ∃ self' : Inference,
    test_for_prima_facie self = Ok self'
    ∧ (∀ effect,
         entry (prima_facie self') effect
         = accepted_causes self effect (hypotheses self)
         ∧ NoDup (entry (prima_facie self') effect)
         ∧ ∀ cause, cause ∈ entry (prima_facie self') effect
             ↔ (cause, effect) ∈ hypotheses self
               ∧ accepts self cause effect = true)
    ∧ (∀ effect, is_Some (prima_facie self' !! effect)
         ↔ ∃ cause, (cause, effect) ∈ hypotheses self
             ∧ accepts self cause effect = true).
Proof.
  intros Hb Hempty Hnd.
  destruct (test_for_prima_facie_returns self Hb) as (pf' & Hret & Hentry & Hnone).
  exists (set_prima_facie pf' self). split; [done|]. cbn.
  assert (He : ∀ effect, entry pf' effect
             = accepted_causes self effect (hypotheses self)).
  { intros effect. rewrite Hentry. unfold entry.
    by rewrite Hempty, lookup_empty. }
  split.
  - intros effect. rewrite He. split; [done|].
    split; [by apply accepted_causes_NoDup|].
    intros cause. apply elem_of_accepted_causes.
  - intros effect. rewrite <- not_eq_None_Some, Hnone, Hempty, lookup_empty.
    split.
    + intros Hno.
      destruct (accepted_causes self effect (hypotheses self))
        as [|cause l] eqn:Hacc; [by destruct Hno|].
      exists cause. apply elem_of_accepted_causes. rewrite Hacc. left.
    + intros (cause & Hc) [_ Hacc].
      apply elem_of_accepted_causes in Hc. rewrite Hacc in Hc.
      by apply elem_of_nil in Hc.
Qed.

Lemma test_for_prima_facie_entries_set_witness :
  built_from_log example_self ∧ prima_facie example_self = ∅
  ∧ NoDup (hypotheses example_self)
  ∧ ∃ self' : Inference,
      test_for_prima_facie example_self = Ok self'
      ∧ ∀ effect,
          entry (prima_facie self') effect
          = accepted_causes example_self effect (hypotheses example_self)
          ∧ NoDup (entry (prima_facie self') effect).
Proof.
  assert (Hb : built_from_log example_self) by (vm_compute; reflexivity).
  assert (He : prima_facie example_self = ∅) by (vm_compute; reflexivity).
  assert (Hn : NoDup (hypotheses example_self))
    by (apply (bool_decide_unpack _); vm_compute; exact I).
  split; [exact Hb|]. split; [exact He|]. split; [exact Hn|].
  destruct (test_for_prima_facie_entries_set example_self Hb He Hn)
    as (self' & Hret & Hall & _).
  exists self'. split; [exact Hret|].
  intros effect. destruct (Hall effect) as (H1 & H2 & _).
  split; [exact H1 | exact H2].
Defined.

(** ** More on the window primitives *)

(** X17: on any two closed windows, whatever their widths, [get_overlap]
    answers [None] exactly when they do not intersect; otherwise its
    interval starts at the later start, is not inverted, contains every
    point the two windows share, and ends at one of the two ends. *)
Theorem get_overlap_covers (w1 w2 : Z * Z) :
  w1.1 ≤ w1.2 → w2.1 ≤ w2.2 →
  (get_overlap w1 w2 = None ↔ ¬ intersect w1 w2)
  ∧ ∀ o, get_overlap w1 w2 = Some o →
      o.1 = Z.max w1.1 w2.1 ∧ o.1 ≤ o.2
      ∧ (o.2 = w1.2 ∨ o.2 = w2.2)
      ∧ ∀ t, in_window t w1 → in_window t w2 → in_window t o.
Proof.
  intros H1 H2. rewrite (intersect_iff w1 w2 H1 H2).
  destruct w1 as [r s], w2 as [p q]. rewrite get_overlap_unfold.
  unfold in_window. simpl in *. split.
  - repeat case_decide; split; intros; try done; lia.
  - intros o Ho. repeat case_decide; simplify_eq; simpl;
      (split; [lia|]); (split; [lia|]); (split; [auto|]); intros; lia.
Qed.

Lemma get_overlap_covers_witness :
  (0, 10).1 ≤ (0, 10).2 ∧ (3, 5).1 ≤ (3, 5).2
  ∧ ∀ o, get_overlap (0, 10) (3, 5) = Some o →
      ∀ t, in_window t (0, 10) → in_window t (3, 5) → in_window t o.
Proof.
  assert (H1 : (0, 10).1 ≤ (0, 10).2) by (simpl; lia).
  assert (H2 : (3, 5).1 ≤ (3, 5).2) by (simpl; lia).
  split; [exact H1|]. split; [exact H2|].
  intros o Ho.
  exact (proj2 (proj2 (proj2 (proj2 (get_overlap_covers (0, 10) (3, 5) H1 H2) o Ho)))).
Defined.

(** X18: on two overlapping closed windows with different starts, of
    which the one that starts first also ends first, the results of
    [get_overlap] and [get_only_x] together cover [window_x] exactly: a
    point lies in [window_x] if and only if it lies in the overlap or in
    the part that [get_only_x] returns. *)
Theorem overlap_and_only_x_cover_window_x (window_c window_x : Z * Z) :
  window_c.1 ≤ window_c.2 → window_x.1 ≤ window_x.2 →
  same_order window_c window_x → intersect window_c window_x →
  window_c.1 ≠ window_x.1 →
  ∃ overlap only_x,
    get_overlap window_c window_x = Some overlap
    ∧ get_only_x window_c window_x = Some only_x
    ∧ ∀ t, in_window t window_x ↔ in_window t overlap ∨ in_window t only_x.
Proof.
  intros H1 H2 Hso Hi Hne. apply intersect_iff in Hi; [|done..].
  destruct window_c as [r s], window_x as [p q].
  rewrite get_overlap_unfold. unfold get_only_x, same_order, in_window in *.
  simpl in *.
  repeat case_decide; try lia; eexists _, _; (split; [done|]);
    (split; [done|]); intros t; simpl; lia.
Qed.

Lemma overlap_and_only_x_cover_window_x_witness :
  (0, 5).1 ≤ (0, 5).2 ∧ (3, 8).1 ≤ (3, 8).2 ∧ same_order (0, 5) (3, 8)
  ∧ intersect (0, 5) (3, 8) ∧ (0, 5).1 ≠ (3, 8).1
  ∧ ∃ overlap only_x,
      get_overlap (0, 5) (3, 8) = Some overlap
      ∧ get_only_x (0, 5) (3, 8) = Some only_x
      ∧ ∀ t, in_window t (3, 8) ↔ in_window t overlap ∨ in_window t only_x.
Proof.
  assert (H1 : (0, 5).1 ≤ (0, 5).2) by (simpl; lia).
  assert (H2 : (3, 8).1 ≤ (3, 8).2) by (simpl; lia).
  assert (H3 : same_order (0, 5) (3, 8)) by (unfold same_order; simpl; lia).
  assert (H4 : intersect (0, 5) (3, 8))
    by (exists 3; unfold in_window; simpl; lia).
  assert (H5 : (0, 5).1 ≠ (3, 8).1) by (simpl; lia).
  split; [exact H1|]. split; [exact H2|]. split; [exact H3|].
  split; [exact H4|]. split; [exact H5|].
  exact (overlap_and_only_x_cover_window_x (0, 5) (3, 8) H1 H2 H3 H4 H5).
Defined.

Lemma get_only_x_portion_witness :
  (0, 5).1 ≤ (0, 5).2 ∧ (3, 8).1 ≤ (3, 8).2 ∧ same_order (0, 5) (3, 8)
  ∧ intersect (0, 5) (3, 8) ∧ get_only_x (0, 5) (3, 8) = Some (5, 8)
  ∧ (in_window 6 (3, 8) ∧ ¬ in_window 6 (0, 5) → in_window 6 (5, 8)).
Proof.
  assert (H1 : (0, 5).1 ≤ (0, 5).2) by (simpl; lia).
  assert (H2 : (3, 8).1 ≤ (3, 8).2) by (simpl; lia).
  assert (H3 : same_order (0, 5) (3, 8)) by (unfold same_order; simpl; lia).
  assert (H4 : intersect (0, 5) (3, 8))
    by (exists 3; unfold in_window; simpl; lia).
  assert (H5 : get_only_x (0, 5) (3, 8) = Some (5, 8)) by reflexivity.
  split; [exact H1|]. split; [exact H2|]. split; [exact H3|].
  split; [exact H4|]. split; [exact H5|].
  exact (proj1 (get_only_x_portion (0, 5) (3, 8) (5, 8) 6 H1 H2 H3 H4 H5)).
Defined.

(** ** Windowed case matching *)

Lemma elem_of_get_ands (c_trues x_trues : timepoints) (r s : Z)
    (entry : (Z * Z) * list string) :
  entry ∈ get_ands c_trues x_trues (r, s)
  ↔ ∃ t c_cases cand x_cases,
      (t, c_cases) ∈ c_trues ∧ (cand, x_cases) ∈ x_trues
      ∧ (cand >= t - (s - r) ∧ cand ≤ t + (s - r))
      ∧ ∃ overlap,
          get_overlap (t + r, t + s) (cand + r, cand + s) = Some overlap
          ∧ filter (λ c, c ∈ x_cases) c_cases ≠ []
          ∧ entry = (overlap, filter (λ c, c ∈ x_cases) c_cases).
Proof.
  unfold get_ands. rewrite list_elem_of_bind. split.
  - intros ([t c_cases] & Hin & Ht).
    apply list_elem_of_bind in Hin as ([cand x_cases] & Hin & Hcand).
    apply list_elem_of_filter in Hcand as [Hrange Hcand]. simpl in Hrange.
    exists t, c_cases, cand, x_cases. split; [done|]. split; [done|].
    split; [done|].
    destruct (get_overlap _ _) as [overlap|]; [|by apply elem_of_nil in Hin].
    case_decide as Hlen; [|by apply elem_of_nil in Hin].
    apply list_elem_of_singleton in Hin as ->.
    exists overlap. split; [done|]. split; [|done].
    intros Hnil. by rewrite Hnil in Hlen.
  - intros (t & c_cases & cand & x_cases & Ht & Hcand & Hrange
            & overlap & Ho & Hne & ->).
    exists (t, c_cases). split; [|done].
    apply list_elem_of_bind. exists (cand, x_cases).
    split; [|by apply list_elem_of_filter].
    rewrite Ho. rewrite decide_True; [left|].
    by destruct (filter _ c_cases).
Qed.

(** X19: on integer timepoints and an integer window [(r, s)] with
    [r ≤ s], where the sums and differences are exact, the entries of [get_ands]
    are exactly the pairs of the intersection of the window of a [c]
    timepoint with the window of an [x] timepoint at most [s - r] away,
    and the cases the two timepoints share, for the timepoints that share
    a case; within that distance the two windows always overlap. *)
Theorem get_ands_characterised (c_trues x_trues : timepoints) (r s : Z)
    (entry : (Z * Z) * list string) :
  r ≤ s →
  entry ∈ get_ands c_trues x_trues (r, s)
  ↔ ∃ t c_cases cand x_cases,
      (t, c_cases) ∈ c_trues ∧ (cand, x_cases) ∈ x_trues
      ∧ t - (s - r) ≤ cand ≤ t + (s - r)
      ∧ filter (λ c, c ∈ x_cases) c_cases ≠ []
      ∧ entry = (intersection_interval (t + r, t + s) (cand + r, cand + s),
                 filter (λ c, c ∈ x_cases) c_cases).
Proof.
  intros Hrs. rewrite elem_of_get_ands.
  assert (Hov : ∀ t cand, cand >= t - (s - r) ∧ cand ≤ t + (s - r) →
            get_overlap (t + r, t + s) (cand + r, cand + s)
            = Some (intersection_interval (t + r, t + s) (cand + r, cand + s))).
  { intros t cand Hrange.
    destruct (candidate_windows_overlap t cand r s Hrs Hrange) as [Hi Hso].
    by apply get_overlap_ordered; [simpl; lia | simpl; lia | |]. }
  split.
  - intros (t & c_cases & cand & x_cases & Ht & Hc & Hrange & o & Ho & Hne & ->).
    exists t, c_cases, cand, x_cases. rewrite (Hov t cand Hrange) in Ho.
    simplify_eq. repeat split; try done; lia.
  - intros (t & c_cases & cand & x_cases & Ht & Hc & Hrange & Hne & ->).
    exists t, c_cases, cand, x_cases. split; [done|]. split; [done|].
    split; [lia|]. eexists. split; [apply Hov; lia|]. done.
Qed.

Lemma get_ands_characterised_witness :
  0 ≤ 2
  ∧ (((1, 2), ["a"]) ∈ get_ands [(0, ["a"])] [(1, ["a"]); (9, ["a"])] (0, 2)
     ↔ ∃ t c_cases cand x_cases,
         (t, c_cases) ∈ [(0, ["a"])] ∧ (cand, x_cases) ∈ [(1, ["a"]); (9, ["a"])]
         ∧ t - (2 - 0) ≤ cand ≤ t + (2 - 0)
         ∧ filter (λ c, c ∈ x_cases) c_cases ≠ []
         ∧ ((1, 2), ["a"])
           = (intersection_interval (t + 0, t + 2) (cand + 0, cand + 2),
              filter (λ c, c ∈ x_cases) c_cases)).
Proof.
  assert (H : 0 ≤ 2) by lia.
  split; [exact H|].
  exact (get_ands_characterised [(0, ["a"])] [(1, ["a"]); (9, ["a"])] 0 2
           ((1, 2), ["a"]) H).
Defined.

Lemma bind_nil_r {A B : Type} (l : list A) (f : A → list B) :
  (∀ x, x ∈ l → f x = []) → l ≫= f = [].
Proof.
  induction l as [|x l IH]; intros Hall; [done|].
  cbn. rewrite (Hall x) by left. apply IH. intros y Hy. apply Hall. by right.
Qed.

Lemma filter_none {A : Type} (P : A → Prop) `{∀ x, Decision (P x)} (l : list A) :
  (∀ x, x ∈ l → ¬ P x) → filter P l = [].
Proof.
  induction l as [|x l IH]; intros Hall; [done|].
  rewrite filter_cons_False by (apply Hall; left).
  apply IH. intros y Hy. apply Hall. by right.
Qed.

(** X20: with an inverted window, [s < r], no [x] timepoint is a
    candidate, and [get_ands] and [get_nots] both return the empty list. *)
Theorem inverted_window_no_entries (c_trues x_trues : timepoints) (r s : Z) :
  s < r →
  get_ands c_trues x_trues (r, s) = []
  ∧ get_nots c_trues x_trues (r, s) = [].
Proof.
  intros Hsr. unfold get_ands, get_nots. split.
  - apply bind_nil_r. intros [t c_cases] _.
    rewrite filter_none; [done|]. intros [cand x_cases] _. simpl. lia.
  - apply bind_nil_r. intros [t c_cases] _.
    rewrite filter_none; [done|]. intros [cand x_cases] _. simpl. lia.
Qed.

Lemma inverted_window_no_entries_witness :
  2 < 5
  ∧ get_ands [(0, ["a"])] [(1, ["a"])] (5, 2) = []
  ∧ get_nots [(0, ["a"])] [(1, ["a"])] (5, 2) = [].
Proof.
  assert (H : 2 < 5) by lia.
  split; [exact H|].
  exact (inverted_window_no_entries [(0, ["a"])] [(1, ["a"])] 5 2 H).
Defined.

(** X21: on integer timepoints and an integer window [(r, s)] with
    [r ≤ s], where the sums and differences are exact, the entries of [get_nots]
    come from the pairs of a [c] timepoint and an [x] timepoint at most
    [s - r] away, and are of three kinds: the whole [x] window with no
    case, when the two timepoints share none; the stretch from the end of
    the [c] window to the end of the [x] window with the shared cases,
    when [c] comes first; the stretch from the start of the [x] window to
    the start of the [c] window with the shared cases, when [x] comes
    first.  Each lies within the [x] window it comes from. *)
Theorem get_nots_characterised (c_trues x_trues : timepoints) (r s : Z)
    (entry : (Z * Z) * list string) :
  r ≤ s →
  (entry ∈ get_nots c_trues x_trues (r, s)
   ↔ ∃ t c_cases cand x_cases,
       (t, c_cases) ∈ c_trues ∧ (cand, x_cases) ∈ x_trues
       ∧ t - (s - r) ≤ cand ≤ t + (s - r)
       ∧ ((filter (λ c, c ∈ x_cases) c_cases = []
           ∧ entry = ((cand + r, cand + s), []))
          ∨ (t < cand
             ∧ entry = ((t + s, cand + s), filter (λ c, c ∈ x_cases) c_cases))
          ∨ (cand < t
             ∧ entry = ((cand + r, t + r), filter (λ c, c ∈ x_cases) c_cases))))
  ∧ (entry ∈ get_nots c_trues x_trues (r, s) →
     ∃ cand x_cases, (cand, x_cases) ∈ x_trues
       ∧ cand + r ≤ entry.1.1 ∧ entry.1.1 ≤ entry.1.2 ∧ entry.1.2 ≤ cand + s).
Proof.
  intros Hrs.
  assert (Hiff : entry ∈ get_nots c_trues x_trues (r, s)
   ↔ ∃ t c_cases cand x_cases,
       (t, c_cases) ∈ c_trues ∧ (cand, x_cases) ∈ x_trues
       ∧ t - (s - r) ≤ cand ≤ t + (s - r)
       ∧ ((filter (λ c, c ∈ x_cases) c_cases = []
           ∧ entry = ((cand + r, cand + s), []))
          ∨ (t < cand
             ∧ entry = ((t + s, cand + s), filter (λ c, c ∈ x_cases) c_cases))
          ∨ (cand < t
             ∧ entry = ((cand + r, t + r), filter (λ c, c ∈ x_cases) c_cases)))).
  { unfold get_nots. rewrite list_elem_of_bind. split.
    - intros ([t c_cases] & Hin & Ht).
      apply list_elem_of_bind in Hin as ([cand x_cases] & Hin & Hcand).
      apply list_elem_of_filter in Hcand as [Hrange Hcand]. simpl in Hrange.
      exists t, c_cases, cand, x_cases. split; [done|]. split; [done|].
      split; [lia|]. unfold get_only_x in Hin.
      apply elem_of_app in Hin as [Hin|Hin].
      + case_decide as Hlen; [|by apply elem_of_nil in Hin].
        apply list_elem_of_singleton in Hin as ->. left.
        destruct (filter _ c_cases); [done | simpl in Hlen; lia].
      + right. repeat case_decide;
          try (by apply elem_of_nil in Hin);
          apply list_elem_of_singleton in Hin as ->; [left | right];
          (split; [lia | done]).
    - intros (t & c_cases & cand & x_cases & Ht & Hcand & Hrange & Hkind).
      exists (t, c_cases). split; [|done].
      apply list_elem_of_bind. exists (cand, x_cases).
      split; [|apply list_elem_of_filter; split; [simpl; lia | done]].
      apply elem_of_app. unfold get_only_x.
      destruct Hkind as [[Hnil ->]|[[Hlt ->]|[Hlt ->]]].
      + left. rewrite Hnil. cbn. left.
      + right. rewrite decide_True by lia. left.
      + right. rewrite decide_False, decide_True by lia. left. }
  split; [exact Hiff|].
  intros Hin. apply Hiff in Hin
    as (t & c_cases & cand & x_cases & Ht & Hcand & Hrange & Hkind).
  exists cand, x_cases. split; [done|].
  destruct Hkind as [[_ ->]|[[Hlt ->]|[Hlt ->]]]; simpl; lia.
Qed.

Lemma get_nots_characterised_witness :
  0 ≤ 2
  ∧ (((2, 3), ["a"]) ∈ get_nots [(0, ["a"])] [(1, ["a"]); (2, ["b"])] (0, 2) →
     ∃ cand x_cases, (cand, x_cases) ∈ [(1, ["a"]); (2, ["b"])]
       ∧ cand + 0 ≤ 2 ∧ 2 ≤ 3 ∧ 3 ≤ cand + 2).
Proof.
  assert (H : 0 ≤ 2) by lia.
  split; [exact H|].
  exact (proj2 (get_nots_characterised [(0, ["a"])] [(1, ["a"]); (2, ["b"])]
                  0 2 ((2, 3), ["a"]) H)).
Defined.

(** ** More on counting effects *)

Lemma count_effect_length (e_trues : timepoints)
    (windows : list ((Z * Z) * list string)) :
  count_effect e_trues windows = length (filter (qualifies e_trues) windows).
Proof. unfold count_effect. by rewrite count_effect_foldl. Qed.

(** X22: [count_effect] adds up over a concatenation of window lists;
    entries without cases, like those [get_nots] records for timepoints
    that share no case, never count; and without effect timepoints
    nothing counts. *)
Theorem count_effect_additive (e_trues : timepoints)
    (windows1 windows2 : list ((Z * Z) * list string)) :
  count_effect e_trues (windows1 ++ windows2)
  = (count_effect e_trues windows1 + count_effect e_trues windows2)%nat
  ∧ count_effect e_trues
      (filter (λ entry : (Z * Z) * list string, entry.2 ≠ []) windows1)
    = count_effect e_trues windows1
  ∧ count_effect [] windows1 = 0%nat.
Proof.
  rewrite !count_effect_length. split; [|split].
  - by rewrite filter_app, length_app.
  - rewrite list_filter_filter. f_equal. apply list_filter_iff.
    intros entry. split; [tauto|]. intros Hq. split; [done|].
    destruct Hq as (e & e_cases & case & _ & _ & _ & Hc). intros Hnil.
    rewrite Hnil in Hc. by apply elem_of_nil in Hc.
  - rewrite filter_none; [done|].
    intros entry _ (e & e_cases & case & Hin & _). by apply elem_of_nil in Hin.
Qed.

Lemma length_filter_mono {A : Type} (P Q : A → Prop)
    `{∀ x, Decision (P x)} `{∀ x, Decision (Q x)} (l : list A) :
  (∀ x, P x → Q x) → (length (filter P l) ≤ length (filter Q l))%nat.
Proof.
  intros HPQ. induction l as [|x l IH]; [done|].
  rewrite !filter_cons. destruct (decide (P x)) as [HP|HP].
  - rewrite decide_True by auto. simpl. lia.
  - case_decide; simpl; lia.
Qed.

(** X23: more effect timepoints never lower the count: if every item of
    one effect dictionary is an item of another, [count_effect] on the
    first is at most [count_effect] on the second. *)
Theorem count_effect_monotone (e_trues e_trues' : timepoints)
    (windows : list ((Z * Z) * list string)) :
  (∀ item, item ∈ e_trues → item ∈ e_trues') →
  (count_effect e_trues windows ≤ count_effect e_trues' windows)%nat.
Proof.
  intros Hsub. rewrite !count_effect_length. apply length_filter_mono.
  intros entry (e & e_cases & case & Hin & Hrest).
  exists e, e_cases, case. split; [by apply Hsub | done].
Qed.

Lemma count_effect_monotone_witness :
  (∀ item : Z * list string, item ∈ [(3, ["a"])] → item ∈ [(3, ["a"]); (4, ["b"])])
  ∧ Nat.le (count_effect [(3, ["a"])] [((0, 5), ["a"]); ((4, 4), ["b"])])
      (count_effect [(3, ["a"]); (4, ["b"])] [((0, 5), ["a"]); ((4, 4), ["b"])]).
Proof.
  assert (H : ∀ item : Z * list string,
                item ∈ [(3, ["a"])] → item ∈ [(3, ["a"]); (4, ["b"])]).
  { intros item ->%list_elem_of_singleton. left. }
  split; [exact H|].
  exact (count_effect_monotone [(3, ["a"])] [(3, ["a"]); (4, ["b"])]
           [((0, 5), ["a"]); ((4, 4), ["b"])] H).
Defined.

(** ** The occurrence index and the counters *)

(** X25: the occurrence index agrees with the pair test: after
    [__init__], the number of cases under [dict_by_obs[obs]] is the number
    of cases that contain [obs], the second counter that
    [test_cause_effect_pair] returns for the cause [obs]. *)
Theorem dict_by_obs_counts (src : list row) (pb : bool) (obs effect : string)
    (by_case : gmap string (list Z)) :
  dict_by_obs (init src pb) !! obs = Some by_case →
  counts_cases (size by_case) (occurs_in src obs)
  ∧ ∃ c_and_e e_trues : nat,
      test_cause_effect_pair (init src pb) obs effect
      = Ok (c_and_e, size by_case, e_trues).
Proof.
  intros Hd.
  assert (Hc : counts_cases (size by_case) (occurs_in src obs)).
  { exists (elements (dom by_case)). split; [apply NoDup_elements|].
    split; [|by rewrite <- size_dom].
    intros case. rewrite elem_of_elements, elem_of_dom.
    pose proof (init_stored src pb obs case) as Hst. unfold stored in Hst.
    rewrite Hd in Hst. cbn in Hst. rewrite Hst, <- times_of_nonempty.
    destruct (times_of src obs case); split; intros H; try done. }
  split; [exact Hc|].
  destruct (test_cause_effect_pair_counts (init src pb) obs effect)
    as (a & Hret & _).
  destruct (init_built_from_log src pb) as (_ & Hsrc & _).
  rewrite Hsrc in Hret. exists a, (length (cases_of effect src)).
  rewrite Hret. do 3 f_equal.
  eapply counts_cases_functional; [apply counts_cases_cases_of | exact Hc].
Qed.

Lemma dict_by_obs_counts_witness :
  ∃ by_case : gmap string (list Z),
    dict_by_obs (init example_log false) !! "A" = Some by_case
    ∧ counts_cases (size by_case) (occurs_in example_log "A").
Proof.
  destruct (dict_by_obs (init example_log false) !! "A") as [by_case|] eqn:Hd.
  - exists by_case. split; [reflexivity|].
    exact (proj1 (dict_by_obs_counts example_log false "A" "B" by_case Hd)).
  - vm_compute in Hd. discriminate Hd.
Defined.
